(** * Verification of the dirty-rectangle drawing core of [src/game/gmdraw.c]

    Shallow embedding of [mk_disjoint] (the grid-sweep decomposition of
    "added minus removed" rectangles) and of [fastdraw] (dirty-rectangle
    collection, occlusion pass and back-to-front redraw).

    Modelling conventions:
    - C [int]s and pygame Rect fields are mathematical integers [Z]; the
      development speaks about executions without signed overflow (which
      is undefined behaviour in C).
    - Heap arrays whose every access is provably in range (the edge arrays)
      are lists read with [nth].  The cell grid of [mk_disjoint] is a list
      whose reads and writes are checked: an access outside the allocated
      cells is undefined behaviour in C and makes the model return [None].
    - Python objects reached by identity (the drawables) live in a store
      [gmap nat drawable]; method calls on them ([draw]) and attribute
      writes are recorded in an event log. *)

From Stdlib Require Import ZArith Lia List Sorting.Sorted.
From stdpp Require Import base list gmap.

Open Scope Z_scope.

(** ** pygame's Rect *)
Module PgRect.

Record rect := mkRect { rx : Z; ry : Z; rw : Z; rh : Z }.

(** [Rect.clip] of the pygame library ([rect_clip] in pygame's rect.c):
    [clip A B] is [A.clip(B)]; when the two rectangles do not intersect the
    result is [A]'s corner with zero size. *)
Definition clip (A B : rect) : rect :=
  let nointersect := mkRect (rx A) (ry A) 0 0 in
  (* Left *)
  let ox :=
    if (rx B <=? rx A) && (rx A <? rx B + rw B) then Some (rx A)
    else if (rx A <=? rx B) && (rx B <? rx A + rw A) then Some (rx B)
    else None in
  match ox with None => nointersect | Some x =>
  (* Right *)
  let ow :=
    if (rx B <? rx A + rw A) && (rx A + rw A <=? rx B + rw B)
    then Some (rx A + rw A - x)
    else if (rx A <? rx B + rw B) && (rx B + rw B <=? rx A + rw A)
    then Some (rx B + rw B - x)
    else None in
  match ow with None => nointersect | Some w =>
  (* Top *)
  let oy :=
    if (ry B <=? ry A) && (ry A <? ry B + rh B) then Some (ry A)
    else if (ry A <=? ry B) && (ry B <? ry A + rh A) then Some (ry B)
    else None in
  match oy with None => nointersect | Some y =>
  (* Bottom *)
  let oh :=
    if (ry B <? ry A + rh A) && (ry A + rh A <=? ry B + rh B)
    then Some (ry A + rh A - y)
    else if (ry A <? ry B + rh B) && (ry B + rh B <=? ry A + rh A)
    then Some (ry B + rh B - y)
    else None in
  match oh with None => nointersect | Some h => mkRect x y w h end end end end.

(** The test [r->r.w > 0 && r->r.h > 0] used throughout the source. *)
Definition positive_area (r : rect) : bool := (0 <? rw r) && (0 <? rh r).

(** Integer point [(px, py)] lies in [r] (half-open on the right/bottom). *)
Definition covers (r : rect) (px py : Z) : Prop :=
  rx r <= px < rx r + rw r /\ ry r <= py < ry r + rh r.

(** Two rectangles share an area of positive size. *)
Definition overlap (a b : rect) : Prop :=
  rx a < rx b + rw b /\ rx b < rx a + rw a /\
  ry a < ry b + rh b /\ ry b < ry a + rh a.

End PgRect.

Import PgRect.

(** ** [mk_disjoint] and its helpers *)
Module Disjoint.

(** [set_add]: scan the [n] used entries of [arr]; if [x] is absent write it
    at [arr[n]].  The list is the used prefix of the array, so the returned
    count ([0] or [1]) is the growth of the list. *)
Fixpoint set_add_seen (arr : list Z) (x : Z) : bool :=
  match arr with
  | [] => false
  | a :: t => if a =? x then true else set_add_seen t x
  end.

Definition set_add (arr : list Z) (x : Z) : list Z :=
  if set_add_seen arr x then arr else arr ++ [x].

(** One iteration of the edge-collection loop (lines 81-85). *)
Definition add_rect_edges (e : list Z * list Z) (r : rect) : list Z * list Z :=
  let '(ex, ey) := e in
  let ex := set_add ex (rx r) in
  let ex := set_add ex (rx r + rw r) in
  let ey := set_add ey (ry r) in
  let ey := set_add ey (ry r + rh r) in
  (ex, ey).

(** Lines 79-87: the add rectangles, then the rm rectangles. *)
Definition get_edges (add rm : list rect) : list Z * list Z :=
  fold_left add_rect_edges (add ++ rm) ([], []).

(** [quicksort] sorts the used prefix of an edge array ascending.  The
    arrays hold pairwise distinct values, so the sorted array is unique;
    it is modelled by its result, computed here by insertion. *)
Fixpoint insert_asc (x : Z) (l : list Z) : list Z :=
  match l with
  | [] => [x]
  | a :: t => if x <=? a then x :: a :: t else a :: insert_asc x t
  end.

Definition quicksort (l : list Z) : list Z := fold_right insert_asc [] l.

(** [find(arr, n, x, i)]: first index [>= i] and [< n] holding [x], else
    [-1].  The loop runs at most [n - i] times. *)
Fixpoint find_loop (arr : list Z) (n x i : Z) (fuel : nat) : Z :=
  match fuel with
  | O => -1
  | S f =>
      if i <? n then
        if nth (Z.to_nat i) arr 0 =? x then i else find_loop arr n x (i + 1) f
      else -1
  end.

Definition find (arr : list Z) (n x i : Z) : Z :=
  find_loop arr n x i (Z.to_nat (n - i)).

(** Checked grid accesses: [None] is an access outside the allocation. *)
Definition grid_get (grid : list Z) (idx : Z) : option Z :=
  if idx <? 0 then None else grid !! Z.to_nat idx.

Definition grid_set (grid : list Z) (idx v : Z) : option (list Z) :=
  if (0 <=? idx) && (idx <? Z.of_nat (length grid))
  then Some (<[Z.to_nat idx := v]> grid) else None.

(** Inner loop of the marking pass (line 106): columns [l .. l+fuel-1] of
    row [k]; [stride] is [n_edges[1] - 1] as in the source. *)
Fixpoint mark_cols (op : Z -> Z) (stride k l : Z) (fuel : nat) (grid : list Z)
  : option (list Z) :=
  match fuel with
  | O => Some grid
  | S f =>
      v ← grid_get grid (stride * k + l);
      grid' ← grid_set grid (stride * k + l) (op v);
      mark_cols op stride k (l + 1) f grid'
  end.

(** Outer loop of the marking pass (line 105). *)
Fixpoint mark_rows (op : Z -> Z) (stride k col0 col1 : Z) (fuel : nat)
  (grid : list Z) : option (list Z) :=
  match fuel with
  | O => Some grid
  | S f =>
      grid' ← mark_cols op stride k col0 (Z.to_nat (col1 - col0)) grid;
      mark_rows op stride (k + 1) col0 col1 f grid'
  end.

(** Body of the marking loop for one rectangle (lines 99-113): [is_add] is
    [i == 0]. *)
Definition mark_rect (is_add : bool) (ex ey : list Z) (grid : list Z) (r : rect)
  : option (list Z) :=
  if (rw r >? 0) && (rh r >? 0) then
    let nx := Z.of_nat (length ex) in
    let ny := Z.of_nat (length ey) in
    let row0 := find ey ny (ry r) 0 in
    let row1 := find ey ny (ry r + rh r) row0 in
    let col0 := find ex nx (rx r) 0 in
    let col1 := find ex nx (rx r + rw r) col0 in
    let op := if is_add then fun v => Z.lor v 2 else fun v => Z.lxor v 1 in
    mark_rows op (ny - 1) row0 col0 col1 (Z.to_nat (row1 - row0)) grid
  else Some grid.

Fixpoint mark_list (is_add : bool) (ex ey : list Z) (rs : list rect)
  (grid : list Z) : option (list Z) :=
  match rs with
  | [] => Some grid
  | r :: rs' => grid' ← mark_rect is_add ex ey grid r; mark_list is_add ex ey rs' grid'
  end.

(** The marking pass (lines 97-115): add rectangles, then rm rectangles. *)
Definition mark_all (ex ey : list Z) (grid : list Z) (add rm : list rect)
  : option (list Z) :=
  grid' ← mark_list true ex ey add grid; mark_list false ex ey rm grid'.

(** The rectangle of grid cell (row [i], column [j]) (lines 122-126). *)
Definition cell (ex ey : list Z) (i j : Z) : rect :=
  let k := nth (Z.to_nat j) ex 0 in
  let l := nth (Z.to_nat i) ey 0 in
  mkRect k l (nth (Z.to_nat (j + 1)) ex 0 - k) (nth (Z.to_nat (i + 1)) ey 0 - l).

(** Inner loop of the emission pass (line 120). *)
Fixpoint emit_cols (ex ey grid : list Z) (stride i j : Z) (fuel : nat)
  : option (list rect) :=
  match fuel with
  | O => Some []
  | S f =>
      v ← grid_get grid (stride * i + j);
      rest ← emit_cols ex ey grid stride i (j + 1) f;
      Some (if v =? 3 then cell ex ey i j :: rest else rest)
  end.

(** Outer loop of the emission pass (line 119). *)
Fixpoint emit_rows (ex ey grid : list Z) (stride i : Z) (ncols : nat) (fuel : nat)
  : option (list rect) :=
  match fuel with
  | O => Some []
  | S f =>
      a ← emit_cols ex ey grid stride i 0 ncols;
      b ← emit_rows ex ey grid stride (i + 1) ncols f;
      Some (a ++ b)
  end.

(** [mk_disjoint(add, rm)] (lines 54-143). *)
Definition mk_disjoint (add rm : list rect) : option (list rect) :=
  let '(ex0, ey0) := get_edges add rm in
  let ex := quicksort ex0 in
  let ey := quicksort ey0 in
  let nx := Z.of_nat (length ex) in
  let ny := Z.of_nat (length ey) in
  let size := (nx - 1) * (ny - 1) in
  let grid0 := repeat 1 (Z.to_nat size) in
  grid ← mark_all ex ey grid0 add rm;
  emit_rows ex ey grid (ny - 1) 0 (Z.to_nat (nx - 1)) (Z.to_nat (ny - 1)).

End Disjoint.

Import Disjoint.

(** ** [fastdraw] *)
Module FastDraw.

(** The attributes and methods of a graphic that [fastdraw] uses.
    [g_rect] is the [_rect] attribute; [opaque_in] is the graphic's method. *)
Record drawable := mkDrawable {
  visible : bool;
  was_visible : bool;
  g_rect : rect;
  last_rect : rect;
  dirty : list rect;
  opaque_in : rect -> bool
}.

Definition set_was_visible (d : drawable) (b : bool) : drawable :=
  mkDrawable (visible d) b (g_rect d) (last_rect d) (dirty d) (opaque_in d).

Definition set_dirty (d : drawable) (rs : list rect) : drawable :=
  mkDrawable (visible d) (was_visible d) (g_rect d) (last_rect d) rs (opaque_in d).

(** Observable effects on graphics: attribute writes and [draw] calls. *)
Inductive event :=
  | SetWasVisible (g : nat) (b : bool)
  | SetDirty (g : nat)
  | Draw (g : nat) (rs : list rect).

(** Heap objects by identity, the caller's [dirty] list, the event log. *)
Record fstate := mkFState {
  store : gmap nat drawable;
  dirty_acc : list rect;
  log : list event
}.

(** The result: [Py_False] ("no work") or the list of redrawn rectangles. *)
Inductive fd_result :=
  | NoWork
  | Drawn (rs : list rect).

(** Collection, body for one graphic [g] (lines 182-206). *)
Definition collect_one (st : fstate) (g : nat) : option fstate :=
  d ← store st !! g;
  let n := dirty d in
  (* k = 0: was_visible / last_rect *)
  let acc := if was_visible d
             then dirty_acc st ++ map (fun r => clip r (last_rect d)) n
             else dirty_acc st in
  (* k = 1: visible / _rect *)
  let acc := if visible d then acc ++ map (fun r => clip r (g_rect d)) n else acc in
  (* g.was_visible = g.visible *)
  Some (mkFState (<[g := set_was_visible d (visible d)]> (store st)) acc
                 (log st ++ [SetWasVisible g (visible d)])).

Fixpoint collect_layer (st : fstate) (gs : list nat) : option fstate :=
  match gs with
  | [] => Some st
  | g :: gs' => st' ← collect_one st g; collect_layer st' gs'
  end.

(** Lines 179-208. *)
Fixpoint collect (st : fstate) (graphics : list (list nat)) : option fstate :=
  match graphics with
  | [] => Some st
  | gs :: rest => st' ← collect_layer st gs; collect st' rest
  end.

(** The chained clip/opacity test for one dirty rectangle (lines 231-250):
    returns the final [r] and [r_good]. *)
Fixpoint opaque_chain (st : fstate) (gs : list nat) (r : rect) (r_good : bool)
  : option (rect * bool) :=
  match gs with
  | [] => Some (r, r_good)
  | g :: gs' =>
      d ← store st !! g;
      let r' := clip r (g_rect d) in
      let good := (rw r' >? 0) && (rh r' >? 0) && opaque_in d r' in
      if good then opaque_chain st gs' r' good else Some (r', good)
  end.

(** [l_dirty_opaque] of one layer (lines 228-253). *)
Fixpoint layer_opaque (st : fstate) (gs : list nat) (dirty : list rect)
  : option (list rect) :=
  match dirty with
  | [] => Some []
  | r :: rs =>
      match opaque_chain st gs r true with
      | None => None
      | Some (r', r_good) =>
          rest ← layer_opaque st gs rs;
          Some (if r_good then r' :: rest else rest)
      end
  end.

(** The occlusion pass (lines 224-262): one [dirty_by_layer] entry per
    layer, top-most first; [opaque] is [dirty_opaque]. *)
Fixpoint occlude (st : fstate) (graphics : list (list nat)) (dirty opaque : list rect)
  : option (list (list rect)) :=
  match graphics with
  | [] => Some []
  | gs :: rest =>
      l_dirty_opaque ← layer_opaque st gs dirty;
      dbl ← mk_disjoint dirty opaque;
      tl ← occlude st rest dirty (opaque ++ l_dirty_opaque);
      Some (dbl :: tl)
  end.

(** Redraw of one graphic (lines 272-291). *)
Definition draw_one (rs : list rect) (st : fstate) (g : nat) : option fstate :=
  d ← store st !! g;
  let draw_in := filter (fun r => positive_area r = true)
                        (map (fun r => clip (g_rect d) r) rs) in
  let lg := if Nat.ltb 0 (length draw_in) then log st ++ [Draw g draw_in] else log st in
  Some (mkFState (<[g := set_dirty d []]> (store st)) (dirty_acc st)
                 (lg ++ [SetDirty g])).

Fixpoint draw_layer (rs : list rect) (st : fstate) (gs : list nat) : option fstate :=
  match gs with
  | [] => Some st
  | g :: gs' => st' ← draw_one rs st g; draw_layer rs st' gs'
  end.

(** The redraw pass (lines 267-293), over (graphics, dirty_by_layer) pairs
    from the bottom-most layer up. *)
Fixpoint draw_layers (st : fstate) (layers : list (list nat * list rect))
  : option fstate :=
  match layers with
  | [] => Some st
  | (gs, rs) :: rest => st' ← draw_layer rs st gs; draw_layers st' rest
  end.

(** [fastdraw(layers, sfc, graphics, dirty)] (lines 145-319); [sfc] is only
    passed on to [draw] and is left out. *)
Definition fastdraw (layers_in : list nat) (graphics_in : gmap nat (list nat))
  (st : fstate) : option (fd_result * fstate) :=
  graphics ← mapM (fun l => graphics_in !! l) layers_in;
  st1 ← collect st graphics;
  match dirty_acc st1 with
  | [] => Some (NoWork, st1)
  | _ :: _ =>
      dirty_by_layer ← occlude st1 graphics (dirty_acc st1) [];
      st2 ← draw_layers st1 (rev (zip graphics dirty_by_layer));
      Some (Drawn (concat dirty_by_layer), st2)
  end.

End FastDraw.

Import FastDraw.

(** ** The in-place quicksort of the edge arrays *)
Module QuickSortC.

Definition MAX_LEVELS : Z := 300.

(** Checked array access: an index outside the array is undefined
    behaviour in C and gives [None]. *)
Definition rd (a : list Z) (k : Z) : option Z :=
  if 0 <=? k then a !! Z.to_nat k else None.

Definition wr (a : list Z) (k v : Z) : option (list Z) :=
  if (0 <=? k) && (k <? Z.of_nat (length a)) then Some (<[Z.to_nat k := v]> a) else None.

(** [while (arr[R] >= piv && L < R) R--;] *)
Fixpoint dec_R (fuel : nat) (arr : list Z) (piv L R : Z) : option Z :=
  match fuel with
  | O => None
  | S f => v ← rd arr R;
           if (piv <=? v) && (L <? R) then dec_R f arr piv L (R - 1) else Some R
  end.

(** [while (arr[L] <= piv && L < R) L++;] *)
Fixpoint inc_L (fuel : nat) (arr : list Z) (piv L R : Z) : option Z :=
  match fuel with
  | O => None
  | S f => v ← rd arr L;
           if (v <=? piv) && (L <? R) then inc_L f arr piv (L + 1) R else Some L
  end.

(** The partition loop [while (L < R) { ... }] (lines 16-21). *)
Fixpoint partition (fuel : nat) (arr : list Z) (piv L R : Z) : option (list Z * Z * Z) :=
  match fuel with
  | O => None
  | S f =>
      if L <? R then
        R ← dec_R f arr piv L R;
        '(arr, L) ← (if L <? R then v ← rd arr R; arr ← wr arr L v; Some (arr, L + 1)
                     else Some (arr, L));
        L ← inc_L f arr piv L R;
        '(arr, R) ← (if L <? R then v ← rd arr L; arr ← wr arr R v; Some (arr, R - 1)
                     else Some (arr, R));
        partition f arr piv L R
      else Some (arr, L, R)
  end.

(** The outer loop [while (i >= 0) { ... }] over the stack [beg]/[end]
    (lines 11-35). *)
Fixpoint qs_loop (fuel : nat) (arr beg en : list Z) (i : Z) : option (list Z) :=
  match fuel with
  | O => None
  | S f =>
      if 0 <=? i then
        L ← rd beg i; e ← rd en i;
        let R := e - 1 in
        if L <? R then
          piv ← rd arr L;
          '(arr, L, _) ← partition f arr piv L R;
          arr ← wr arr L piv;
          beg ← wr beg (i + 1) (L + 1);
          ei ← rd en i; en ← wr en (i + 1) ei;
          en ← wr en i L;
          let i := i + 1 in
          bi ← rd beg i; ei ← rd en i; bp ← rd beg (i - 1); ep ← rd en (i - 1);
          if ep - bp <? ei - bi then
            beg ← wr beg i bp; beg ← wr beg (i - 1) bi;
            en ← wr en i ep; en ← wr en (i - 1) ei;
            qs_loop f arr beg en i
          else qs_loop f arr beg en i
        else qs_loop f arr beg en (i - 1)
      else Some arr
  end.

(** [quicksort(arr, elements)] (lines 6-36); [fuel] bounds the number of
    loop iterations.  The stacks [beg] and [end] are uninitialised in C;
    their entries are modelled as 0, and only entries written before are
    ever read. *)
Definition quicksort (arr : list Z) (elements : Z) (fuel : nat) : option (list Z) :=
  beg ← wr (repeat 0 (Z.to_nat MAX_LEVELS)) 0 0;
  en ← wr (repeat 0 (Z.to_nat MAX_LEVELS)) 0 elements;
  qs_loop fuel arr beg en 0.

End QuickSortC.

(** ** Edge arrays: distinct values, sorted strictly ascending *)
Section Edges.

Lemma set_add_seen_In arr x : set_add_seen arr x = true <-> In x arr.
Proof.
  induction arr as [|a t IH]; simpl; [split; [discriminate | tauto]|].
  destruct (Z.eqb_spec a x) as [->|Hne]; [tauto|].
  rewrite IH. split; [tauto|]. intros [->|?]; [congruence|assumption].
Qed.

Lemma set_add_NoDup arr x : NoDup arr -> NoDup (set_add arr x).
Proof.
  intros Hnd. unfold set_add. destruct (set_add_seen arr x) eqn:Hs; [assumption|].
  apply NoDup_app. split; [assumption|]. split; [|apply NoDup_singleton].
  intros y Hy Hy'. apply list_elem_of_singleton in Hy'. subst y.
  apply list_elem_of_In in Hy. apply set_add_seen_In in Hy. congruence.
Qed.

Lemma fold_edges_NoDup rs e :
  NoDup e.1 -> NoDup e.2 ->
  NoDup (fold_left add_rect_edges rs e).1 /\ NoDup (fold_left add_rect_edges rs e).2.
Proof.
  revert e. induction rs as [|r rs IH]; intros [ex ey] H1 H2; simpl; [tauto|].
  apply IH; simpl; repeat apply set_add_NoDup; assumption.
Qed.

Lemma get_edges_NoDup add rm ex ey :
  get_edges add rm = (ex, ey) -> NoDup ex /\ NoDup ey.
Proof.
  unfold get_edges. intros E.
  pose proof (fold_edges_NoDup (add ++ rm) ([], []) ltac:(constructor) ltac:(constructor)) as H.
  rewrite E in H. exact H.
Qed.

Lemma insert_asc_In x y l : In y (insert_asc x l) <-> y = x \/ In y l.
Proof.
  induction l as [|a t IH]; simpl; [firstorder congruence|].
  destruct (x <=? a); simpl; [firstorder congruence|]. rewrite IH. firstorder congruence.
Qed.

Lemma quicksort_In y l : In y (quicksort l) <-> In y l.
Proof.
  induction l as [|a t IH]; simpl; [tauto|].
  rewrite insert_asc_In, IH. firstorder congruence.
Qed.

Lemma insert_asc_sorted x l :
  StronglySorted Z.lt l -> ~ In x l -> StronglySorted Z.lt (insert_asc x l).
Proof.
  induction l as [|a t IH]; intros Hs Hx; simpl.
  - repeat constructor.
  - inversion Hs as [|? ? Ht Ha]; subst.
    destruct (Z.leb_spec x a).
    + assert (x < a) by (assert (x <> a) by (intros ->; apply Hx; left; reflexivity); lia).
      constructor; [assumption|]. constructor; [assumption|].
      apply (Forall_impl _ _ _ Ha). simpl; intros; lia.
    + constructor.
      * apply IH; [assumption|]. intros Hin; apply Hx; right; assumption.
      * apply List.Forall_forall. intros y Hy. apply insert_asc_In in Hy as [->|Hy]; [lia|].
        rewrite List.Forall_forall in Ha. apply Ha; assumption.
Qed.

Lemma quicksort_sorted l : NoDup l -> StronglySorted Z.lt (quicksort l).
Proof.
  induction l as [|a t IH]; intros Hnd; simpl; [constructor|].
  apply NoDup_cons in Hnd as [Ha Ht].
  apply insert_asc_sorted; [apply IH; assumption|].
  rewrite quicksort_In. intros Hin. apply Ha. apply list_elem_of_In. exact Hin.
Qed.

Lemma sorted_nth_lt l a b :
  StronglySorted Z.lt l -> (a < b)%nat -> (b < length l)%nat -> nth a l 0 < nth b l 0.
Proof.
  revert a b. induction l as [|x t IH]; intros a b Hs Hab Hb; simpl in *; [lia|].
  inversion Hs as [|? ? Ht Hx]; subst.
  destruct a as [|a], b as [|b]; [lia| |lia|].
  - rewrite List.Forall_forall in Hx. apply Hx. apply nth_In. lia.
  - apply IH; [assumption|lia|lia].
Qed.

Lemma sorted_nth_le l a b :
  StronglySorted Z.lt l -> (a <= b)%nat -> (b < length l)%nat -> nth a l 0 <= nth b l 0.
Proof.
  intros Hs Hab Hb. destruct (Nat.eq_dec a b) as [->|Hne]; [lia|].
  pose proof (sorted_nth_lt l a b Hs ltac:(lia) Hb). lia.
Qed.

End Edges.

(** ** The emission pass emits distinct cells of the grid *)
Section Emission.

Variables (ex ey grid : list Z) (stride : Z).

Lemma emit_cols_cells i j fuel out :
  emit_cols ex ey grid stride i j fuel = Some out ->
  exists js, out = map (cell ex ey i) js /\ NoDup js /\
             Forall (fun j' => j <= j' < j + Z.of_nat fuel) js.
Proof.
  revert j out. induction fuel as [|f IH]; intros j out H; simpl in H.
  - injection H as <-. exists []. repeat constructor.
  - destruct (grid_get grid (stride * i + j)) as [v|]; simpl in H; [|discriminate].
    destruct (emit_cols ex ey grid stride i (j + 1) f) as [rest|] eqn:Er;
      simpl in H; [|discriminate].
    injection H as <-.
    destruct (IH (j + 1) rest Er) as (js & -> & Hnd & Hr).
    destruct (v =? 3).
    + exists (j :: js). split; [reflexivity|]. split.
      * constructor; [|assumption].
        intros Hin. apply list_elem_of_In in Hin.
        rewrite List.Forall_forall in Hr. specialize (Hr j Hin). lia.
      * constructor; [lia|]. apply (Forall_impl _ _ _ Hr). simpl; intros; lia.
    + exists js. split; [reflexivity|]. split; [assumption|].
      apply (Forall_impl _ _ _ Hr). simpl; intros; lia.
Qed.

Lemma emit_rows_cells i ncols fuel out :
  emit_rows ex ey grid stride i ncols fuel = Some out ->
  exists ps, out = map (fun p => cell ex ey p.1 p.2) ps /\ NoDup ps /\
    Forall (fun p => i <= p.1 < i + Z.of_nat fuel /\ 0 <= p.2 < Z.of_nat ncols) ps.
Proof.
  revert i out. induction fuel as [|f IH]; intros i out H; simpl in H.
  - injection H as <-. exists []. repeat constructor.
  - destruct (emit_cols ex ey grid stride i 0 ncols) as [a|] eqn:Ea;
      simpl in H; [|discriminate].
    destruct (emit_rows ex ey grid stride (i + 1) ncols f) as [b|] eqn:Eb;
      simpl in H; [|discriminate].
    injection H as <-.
    destruct (emit_cols_cells i 0 ncols a Ea) as (js & -> & Hnd1 & Hr1).
    destruct (IH (i + 1) b Eb) as (ps & -> & Hnd2 & Hr2).
    exists (map (fun j => (i, j)) js ++ ps). split.
    { rewrite map_app, map_map. reflexivity. }
    split.
    + apply NoDup_app. split; [|split; [|assumption]].
      * apply NoDup_fmap_2; [|assumption]. intros x y E; injection E; tauto.
      * intros p Hp Hp'. apply list_elem_of_In in Hp, Hp'.
        apply in_map_iff in Hp as (j & <- & _).
        rewrite List.Forall_forall in Hr2. specialize (Hr2 _ Hp'). simpl in Hr2. lia.
    + apply Forall_app. split.
      * apply Forall_map. apply (Forall_impl _ _ _ Hr1). simpl; intros; lia.
      * apply (Forall_impl _ _ _ Hr2). simpl; intros; lia.
Qed.

End Emission.

(** Cells of strictly sorted edge arrays have positive size and are
    pairwise disjoint. *)
Section Cells.

Variables (ex ey : list Z).
Hypothesis (Hx : StronglySorted Z.lt ex) (Hy : StronglySorted Z.lt ey).

Definition in_grid (p : Z * Z) : Prop :=
  0 <= p.1 < Z.of_nat (length ey) - 1 /\ 0 <= p.2 < Z.of_nat (length ex) - 1.

Lemma cell_positive p :
  in_grid p -> 0 < rw (cell ex ey p.1 p.2) /\ 0 < rh (cell ex ey p.1 p.2).
Proof.
  destruct p as [i j]; unfold in_grid, cell; simpl; intros [Hi Hj]. split.
  - pose proof (sorted_nth_lt ex (Z.to_nat j) (Z.to_nat (j + 1)) Hx
                  ltac:(lia) ltac:(lia)). lia.
  - pose proof (sorted_nth_lt ey (Z.to_nat i) (Z.to_nat (i + 1)) Hy
                  ltac:(lia) ltac:(lia)). lia.
Qed.

Lemma cell_disjoint p q :
  in_grid p -> in_grid q -> p <> q ->
  ~ overlap (cell ex ey p.1 p.2) (cell ex ey q.1 q.2).
Proof.
  destruct p as [i j], q as [i' j']; unfold in_grid, overlap, cell; simpl.
  intros [Hi Hj] [Hi' Hj'] Hne.
  destruct (Z.eq_dec j j') as [<-|Hjj].
  - assert (i <> i') by congruence.
    destruct (Z.lt_ge_cases i i').
    + pose proof (sorted_nth_le ey (Z.to_nat (i + 1)) (Z.to_nat i') Hy
                    ltac:(lia) ltac:(lia)). lia.
    + pose proof (sorted_nth_le ey (Z.to_nat (i' + 1)) (Z.to_nat i) Hy
                    ltac:(lia) ltac:(lia)). lia.
  - destruct (Z.lt_ge_cases j j').
    + pose proof (sorted_nth_le ex (Z.to_nat (j + 1)) (Z.to_nat j') Hx
                    ltac:(lia) ltac:(lia)). lia.
    + pose proof (sorted_nth_le ex (Z.to_nat (j' + 1)) (Z.to_nat j) Hx
                    ltac:(lia) ltac:(lia)). lia.
Qed.

End Cells.

(** ** The marking pass *)
Section Marking.

Variables (P : Z -> Prop) (op : Z -> Z).
Hypothesis Hop : forall v, P v -> P (op v).

Lemma mark_cols_Forall stride k l fuel grid grid' :
  Forall P grid -> mark_cols op stride k l fuel grid = Some grid' -> Forall P grid'.
Proof.
  revert l grid. induction fuel as [|f IH]; intros l grid Hg H; simpl in H.
  - injection H as <-. exact Hg.
  - unfold grid_get in H. destruct (stride * k + l <? 0); [discriminate|].
    destruct (grid !! Z.to_nat (stride * k + l)) as [v|] eqn:Ev; simpl in H; [|discriminate].
    unfold grid_set in H.
    destruct ((0 <=? stride * k + l) && (stride * k + l <? Z.of_nat (length grid)));
      simpl in H; [|discriminate].
    eapply IH; [|exact H].
    apply Forall_insert; [assumption|]. apply Hop. eapply Forall_lookup_1; eassumption.
Qed.

Lemma mark_rows_Forall stride k col0 col1 fuel grid grid' :
  Forall P grid -> mark_rows op stride k col0 col1 fuel grid = Some grid' -> Forall P grid'.
Proof.
  revert k grid. induction fuel as [|f IH]; intros k grid Hg H; simpl in H.
  - injection H as <-. exact Hg.
  - destruct (mark_cols op stride k col0 (Z.to_nat (col1 - col0)) grid) as [g1|] eqn:E1;
      simpl in H; [|discriminate].
    eapply IH; [|exact H]. eapply mark_cols_Forall; eassumption.
Qed.

End Marking.

(** The C test [r.w > 0 && r.h > 0] that guards the marking of a rectangle. *)
Definition nondegenerate (r : rect) : bool := (rw r >? 0) && (rh r >? 0).

Lemma mark_list_skips_degenerate b ex ey rs grid :
  mark_list b ex ey rs grid = mark_list b ex ey (List.filter nondegenerate rs) grid.
Proof.
  revert grid. induction rs as [|r rs IH]; intros grid; simpl; [reflexivity|].
  unfold nondegenerate. destruct ((rw r >? 0) && (rh r >? 0)) eqn:Hd; simpl.
  - unfold mark_rect at 1 2. rewrite Hd.
    destruct (mark_rows _ _ _ _ _ _ grid); simpl; [apply IH|reflexivity].
  - unfold mark_rect. rewrite Hd. simpl. apply IH.
Qed.

(** With only remove rectangles every cell stays [0] or [1]. *)
Lemma mark_list_rm_01 ex ey rs grid grid' :
  Forall (fun v => v = 0 \/ v = 1) grid ->
  mark_list false ex ey rs grid = Some grid' ->
  Forall (fun v => v = 0 \/ v = 1) grid'.
Proof.
  revert grid. induction rs as [|r rs IH]; intros grid Hg H; simpl in H.
  - injection H as <-. exact Hg.
  - destruct (mark_rect false ex ey grid r) as [g1|] eqn:E1; simpl in H; [|discriminate].
    apply (IH g1); [|exact H].
    unfold mark_rect in E1. destruct (_ && _).
    + eapply mark_rows_Forall; [|exact Hg|exact E1].
      intros v [->| ->]; [right|left]; reflexivity.
    + injection E1 as <-. exact Hg.
Qed.

Lemma emit_cols_no3 ex ey grid stride i j fuel out :
  Forall (fun v => v <> 3) grid ->
  emit_cols ex ey grid stride i j fuel = Some out -> out = [].
Proof.
  intros Hg. revert j out. induction fuel as [|f IH]; intros j out H; simpl in H.
  - injection H as <-. reflexivity.
  - unfold grid_get in H. destruct (stride * i + j <? 0); [discriminate|].
    destruct (grid !! Z.to_nat (stride * i + j)) as [v|] eqn:Ev; simpl in H; [|discriminate].
    destruct (emit_cols ex ey grid stride i (j + 1) f) as [rest|] eqn:Er;
      simpl in H; [|discriminate].
    injection H as <-. rewrite (IH _ _ Er).
    pose proof (Forall_lookup_1 _ _ _ _ Hg Ev) as Hv. simpl in Hv.
    destruct (Z.eqb_spec v 3); [contradiction|reflexivity].
Qed.

Lemma emit_rows_no3 ex ey grid stride i ncols fuel out :
  Forall (fun v => v <> 3) grid ->
  emit_rows ex ey grid stride i ncols fuel = Some out -> out = [].
Proof.
  intros Hg. revert i out. induction fuel as [|f IH]; intros i out H; simpl in H.
  - injection H as <-. reflexivity.
  - destruct (emit_cols ex ey grid stride i 0 ncols) as [a|] eqn:Ea;
      simpl in H; [|discriminate].
    destruct (emit_rows ex ey grid stride (i + 1) ncols f) as [b|] eqn:Eb;
      simpl in H; [|discriminate].
    injection H as <-. rewrite (emit_cols_no3 _ _ _ _ _ _ _ _ Hg Ea), (IH _ _ Eb).
    reflexivity.
Qed.

(** Whenever [mk_disjoint [] rm] stays inside the grid, it returns []. *)
Lemma mk_disjoint_empty_add_in_bounds rm out :
  mk_disjoint [] rm = Some out -> out = [].
Proof.
  unfold mk_disjoint. destruct (get_edges [] rm) as [ex0 ey0].
  unfold mark_all. simpl.
  destruct (mark_list false _ _ rm _) as [grid|] eqn:Em; simpl; [|discriminate].
  apply emit_rows_no3.
  apply mark_list_rm_01 in Em.
  - apply (Forall_impl _ _ _ Em). intros v [-> | ->]; discriminate.
  - apply List.Forall_forall. intros v Hv. apply repeat_spec in Hv. right; exact Hv.
Qed.

Lemma set_add_In y arr x : In y (set_add arr x) <-> In y arr \/ y = x.
Proof.
  unfold set_add. destruct (set_add_seen arr x) eqn:Hs.
  - apply set_add_seen_In in Hs. firstorder congruence.
  - rewrite in_app_iff. simpl. firstorder congruence.
Qed.

Lemma fold_edges_mono rs e y :
  (In y e.1 -> In y (fold_left add_rect_edges rs e).1) /\
  (In y e.2 -> In y (fold_left add_rect_edges rs e).2).
Proof.
  revert e. induction rs as [|r rs IH]; intros [ex ey]; simpl; [tauto|].
  split; intros Hy; apply IH; simpl; rewrite !set_add_In; tauto.
Qed.

Lemma get_edges_contains add rm :
  Forall (fun r => In (rx r) (get_edges add rm).1 /\ In (rx r + rw r) (get_edges add rm).1 /\
                   In (ry r) (get_edges add rm).2 /\ In (ry r + rh r) (get_edges add rm).2)
         (add ++ rm).
Proof.
  unfold get_edges. generalize (@nil Z, @nil Z) as e.
  induction (add ++ rm) as [|r rs IH]; intros e; constructor; [|apply IH].
  simpl. destruct e as [ex ey]. simpl.
  pose proof (fold_edges_mono rs (set_add (set_add ex (rx r)) (rx r + rw r),
                                  set_add (set_add ey (ry r)) (ry r + rh r))) as Hm.
  simpl in Hm.
  repeat split; [apply (Hm (rx r)) | apply (Hm (rx r + rw r))
                | apply (Hm (ry r)) | apply (Hm (ry r + rh r))];
    rewrite !set_add_In; tauto.
Qed.

(** ** Claims on [mk_disjoint] *)

(** Shared opening of [mk_disjoint]: the edges are strictly sorted and the
    output is the emission pass over the marked grid. *)
Lemma mk_disjoint_emitted add rm out :
  mk_disjoint add rm = Some out ->
  exists ex ey grid,
    StronglySorted Z.lt ex /\ StronglySorted Z.lt ey /\
    emit_rows ex ey grid (Z.of_nat (length ey) - 1) 0
      (Z.to_nat (Z.of_nat (length ex) - 1)) (Z.to_nat (Z.of_nat (length ey) - 1))
    = Some out.
Proof.
  unfold mk_disjoint. destruct (get_edges add rm) as [ex0 ey0] eqn:E.
  destruct (get_edges_NoDup _ _ _ _ E) as [Hx Hy].
  destruct (mark_all _ _ _ add rm) as [grid|]; simpl; [|discriminate].
  intros H. exists (quicksort ex0), (quicksort ey0), grid.
  split; [apply quicksort_sorted; assumption|].
  split; [apply quicksort_sorted; assumption|]. exact H.
Qed.

(** C2: every rectangle returned by [mk_disjoint add rm] has positive width
    and height, and no two of them (at different positions of the returned
    list) overlap with positive area. *)
Theorem mk_disjoint_positive_disjoint add rm out :
  mk_disjoint add rm = Some out ->
  Forall (fun r => 0 < rw r /\ 0 < rh r) out /\
  (forall p q a b, p <> q -> out !! p = Some a -> out !! q = Some b -> ~ overlap a b).
Proof.
  intros H. apply mk_disjoint_emitted in H as (ex & ey & grid & Hx & Hy & H).
  apply emit_rows_cells in H as (ps & -> & Hnd & Hr).
  assert (Hg : Forall (in_grid ex ey) ps).
  { apply (Forall_impl _ _ _ Hr). unfold in_grid. intros [i j]; simpl; lia. }
  split.
  - apply Forall_map. apply (Forall_impl _ _ _ Hg). intros c Hc.
    apply cell_positive; assumption.
  - intros p q a b Hpq Ha Hb.
    apply list_lookup_fmap_Some in Ha as (c & -> & Hc).
    apply list_lookup_fmap_Some in Hb as (c' & -> & Hc').
    apply cell_disjoint; [assumption|assumption| | |].
    + eapply Forall_lookup_1; eassumption.
    + eapply Forall_lookup_1; eassumption.
    + intros <-. apply Hpq. eapply NoDup_lookup; eassumption.
Qed.

(** Witness of C2 on a concrete call. *)
Lemma mk_disjoint_positive_disjoint_witness :
  mk_disjoint [mkRect 0 0 10 10] [mkRect 5 0 10 10] = Some [mkRect 0 0 5 10] /\
  (Forall (fun r => 0 < rw r /\ 0 < rh r) [mkRect 0 0 5 10] /\
   (forall p q a b, p <> q -> [mkRect 0 0 5 10] !! p = Some a ->
      [mkRect 0 0 5 10] !! q = Some b -> ~ overlap a b)).
Proof.
  split; [reflexivity|].
  apply (mk_disjoint_positive_disjoint [mkRect 0 0 10 10] [mkRect 5 0 10 10]).
  reflexivity.
Defined.

(** C1 (fails): the coverage law.  With [add = [r]] and [remove = [r; r]]
    the remove bit of the single cell is toggled twice by [^= 1], so the
    output is [[r]] and covers the point (0, 0), which [remove] covers.  With
    [add = [(20,0,10,10)]] and [remove = [(0,10,10,10)]] the grid has 3
    columns and 2 rows but the row stride is [n_edges[1] - 1 = 2], so cells
    (row 0, column 2) and (row 1, column 0) share index 2 and the remove
    rectangle clears the add rectangle's cell: the output is empty although
    the add rectangle is disjoint from the remove rectangle. *)
Theorem mk_disjoint_coverage_counter :
  mk_disjoint [mkRect 0 0 10 10] [mkRect 0 0 10 10; mkRect 0 0 10 10]
    = Some [mkRect 0 0 10 10] /\
  covers (mkRect 0 0 10 10) 0 0 /\
  mk_disjoint [mkRect 20 0 10 10] [mkRect 0 10 10 10] = Some [] /\
  covers (mkRect 20 0 10 10) 20 0 /\ ~ covers (mkRect 0 10 10 10) 20 0.
Proof.
  split; [reflexivity|]. split; [unfold covers; simpl; lia|].
  split; [reflexivity|]. unfold covers; simpl; lia.
Qed.

(** C3 (fails): removing [r] twice is not the same as removing it once:
    [mk_disjoint [r] [r; r]] yields [[r]], [mk_disjoint [r] [r]] yields []. *)
Theorem mk_disjoint_double_remove :
  mk_disjoint [mkRect 0 0 10 10] [mkRect 0 0 10 10; mkRect 0 0 10 10]
    = Some [mkRect 0 0 10 10] /\
  mk_disjoint [mkRect 0 0 10 10] [mkRect 0 0 10 10] = Some [].
Proof. split; reflexivity. Qed.

(** C4 (fails): with [add = [(0,0,10,10); (0,10,10,10)]] the sorted edges
    are [0;10] and [0;10;20]; the grid has [(2-1)*(3-1) = 2] cells, and the
    second rectangle (row 1, column 0) is marked at index
    [(n_edges[1]-1)*1 + 0 = 2], past the allocation: the model's checked
    write fails and [mk_disjoint] has no defined result. *)
Theorem mk_disjoint_grid_overflow :
  get_edges [mkRect 0 0 10 10; mkRect 0 10 10 10] [] = ([0; 10], [0; 10; 20]) /\
  mark_rect true [0; 10] [0; 10; 20] [3; 1] (mkRect 0 10 10 10) = None /\
  grid_set [3; 1] ((3 - 1) * 1 + 0) 3 = None /\
  mk_disjoint [mkRect 0 0 10 10; mkRect 0 10 10 10] [] = None.
Proof. repeat split; reflexivity. Qed.

(** C10 (fails): with [add = []] and [remove = [(0,0,10,10); (0,10,10,10)]]
    the remove pass toggles grid index 2 of a 2-cell grid. *)
Theorem mk_disjoint_empty_add_overflow :
  mk_disjoint [] [mkRect 0 0 10 10; mkRect 0 10 10 10] = None.
Proof. reflexivity. Qed.

(** C7 (fails as stated): a rectangle of width 0 still adds the x edge 5
    and splits the output, so deleting it changes the emitted sequence. *)
Lemma mk_disjoint_degenerate_splits :
  mk_disjoint [mkRect 0 0 10 10; mkRect 5 0 0 10] []
    = Some [mkRect 0 0 5 10; mkRect 5 0 5 10] /\
  mk_disjoint [mkRect 0 0 10 10] [] = Some [mkRect 0 0 10 10].
Proof. split; reflexivity. Qed.

(** C7 (amended): degenerate rectangles mark no grid cell (the marking pass
    gives the same grid once they are deleted from [add] and [remove]), but
    the corners of every input rectangle, degenerate or not, are collected
    as grid edges. *)
Theorem mk_disjoint_degenerate_edges_only :
  (forall ex ey grid add rm,
     mark_all ex ey grid add rm =
     mark_all ex ey grid (List.filter nondegenerate add) (List.filter nondegenerate rm)) /\
  (forall add rm,
     Forall (fun r => In (rx r) (get_edges add rm).1 /\ In (rx r + rw r) (get_edges add rm).1 /\
                      In (ry r) (get_edges add rm).2 /\ In (ry r + rh r) (get_edges add rm).2)
            (add ++ rm)).
Proof.
  split.
  - intros ex ey grid add rm. unfold mark_all.
    rewrite (mark_list_skips_degenerate true ex ey add).
    destruct (mark_list true ex ey (List.filter nondegenerate add) grid); simpl; [|reflexivity].
    apply mark_list_skips_degenerate.
  - apply get_edges_contains.
Qed.

(** ** Claims on [fastdraw] *)

(** The event is a write of [g.was_visible]. *)
Definition is_wv_write (g : nat) (e : event) : bool :=
  match e with SetWasVisible g' _ => Nat.eqb g g' | _ => false end.

Definition wv_writes (g : nat) (l : list event) : nat :=
  length (List.filter (is_wv_write g) l).

Definition occurrences (g : nat) (gs : list nat) : nat :=
  length (List.filter (Nat.eqb g) gs).

Lemma wv_writes_app g l1 l2 : wv_writes g (l1 ++ l2) = (wv_writes g l1 + wv_writes g l2)%nat.
Proof. unfold wv_writes. rewrite List.filter_app, length_app. reflexivity. Qed.

Lemma collect_layer_app st gs1 gs2 :
  collect_layer st (gs1 ++ gs2) = (st' ← collect_layer st gs1; collect_layer st' gs2).
Proof.
  revert st. induction gs1 as [|g gs1 IH]; intros st; simpl; [reflexivity|].
  destruct (collect_one st g); simpl; [apply IH|reflexivity].
Qed.

Lemma collect_concat st graphics :
  collect st graphics = collect_layer st (concat graphics).
Proof.
  revert st. induction graphics as [|gs rest IH]; intros st; simpl; [reflexivity|].
  rewrite collect_layer_app. destruct (collect_layer st gs); simpl; [apply IH|reflexivity].
Qed.

(** Collection appends exactly one [was_visible] write per visit of a
    graphic, and nothing else. *)
Lemma collect_layer_log st gs st' :
  collect_layer st gs = Some st' ->
  exists new, log st' = log st ++ new /\
    (forall g, wv_writes g new = occurrences g gs) /\
    Forall (fun e => exists g b, e = SetWasVisible g b) new.
Proof.
  revert st. induction gs as [|g0 gs IH]; intros st H; simpl in H.
  - injection H as <-. exists []. rewrite app_nil_r. repeat split; constructor.
  - destruct (collect_one st g0) as [st1|] eqn:E1; simpl in H; [|discriminate].
    destruct (IH st1 H) as (new & Hl & Hw & Hf).
    unfold collect_one in E1. destruct (store st !! g0) as [d|]; simpl in E1; [|discriminate].
    injection E1 as <-. simpl in Hl.
    exists (SetWasVisible g0 (visible d) :: new). split; [rewrite Hl, <- app_assoc; reflexivity|].
    split.
    + intros g. unfold wv_writes, occurrences in *. simpl.
      destruct (Nat.eqb g g0); simpl; rewrite (Hw g); reflexivity.
    + constructor; [eauto|assumption].
Qed.

(** Collection only rewrites [was_visible]: afterwards a visited graphic has
    [was_visible] equal to its [visible], the others keep theirs. *)
Lemma collect_layer_store st gs st' :
  collect_layer st gs = Some st' ->
  forall g d, store st !! g = Some d ->
  exists d', store st' !! g = Some d' /\ visible d' = visible d /\
    (In g gs -> was_visible d' = visible d) /\
    (~ In g gs -> was_visible d' = was_visible d).
Proof.
  revert st. induction gs as [|g0 gs IH]; intros st H g d Hd; simpl in H.
  - injection H as <-. exists d. simpl. tauto.
  - destruct (collect_one st g0) as [st1|] eqn:E1; simpl in H; [|discriminate].
    unfold collect_one in E1. destruct (store st !! g0) as [d0|] eqn:Ed0; simpl in E1; [|discriminate].
    injection E1 as <-.
    destruct (Nat.eq_dec g g0) as [->|Hne].
    + rewrite Ed0 in Hd. injection Hd as <-.
      destruct (IH _ H g0 (set_was_visible d0 (visible d0))) as (d' & Hs & Hv & Hin & Hout).
      { simpl. apply lookup_insert_eq. }
      exists d'. simpl in *. split; [assumption|]. split; [assumption|].
      split; [|intros Hn; exfalso; apply Hn; left; reflexivity].
      intros _. destruct (in_dec Nat.eq_dec g0 gs) as [Hi|Hi];
        [rewrite Hin; [reflexivity|assumption] | rewrite Hout; [reflexivity|assumption]].
    + destruct (IH _ H g d) as (d' & Hs & Hv & Hin & Hout).
      { simpl. rewrite lookup_insert_ne by congruence. exact Hd. }
      exists d'. split; [assumption|]. split; [assumption|]. simpl. split.
      * intros [->|Hi]; [congruence|]. apply Hin; assumption.
      * intros Hn. apply Hout. intros Hi; apply Hn; right; exact Hi.
Qed.

Lemma collect_layer_visited st gs st' g :
  collect_layer st gs = Some st' -> In g gs -> is_Some (store st !! g).
Proof.
  revert st. induction gs as [|g0 gs IH]; intros st H Hin; simpl in H; [contradiction|].
  destruct (collect_one st g0) as [st1|] eqn:E1; simpl in H; [|discriminate].
  unfold collect_one in E1. destruct (store st !! g0) as [d0|] eqn:Ed0; simpl in E1; [|discriminate].
  injection E1 as <-.
  destruct (Nat.eq_dec g g0) as [->|Hne]; [rewrite Ed0; eauto|].
  destruct Hin as [->|Hin]; [congruence|].
  destruct (IH _ H Hin) as [d Hd]. simpl in Hd. rewrite lookup_insert_ne in Hd by congruence.
  rewrite Hd. eauto.
Qed.

(** The redraw pass keeps [visible] and [was_visible] of every graphic and
    writes no [was_visible]. *)
Lemma draw_layer_keeps rs st gs st' :
  draw_layer rs st gs = Some st' ->
  (forall g d, store st !! g = Some d ->
     exists d', store st' !! g = Some d' /\ visible d' = visible d /\
                was_visible d' = was_visible d) /\
  exists new, log st' = log st ++ new /\ forall g, wv_writes g new = 0%nat.
Proof.
  revert st. induction gs as [|g0 gs IH]; intros st H; simpl in H.
  - injection H as <-. split; [intros g d Hd; exists d; tauto|].
    exists []. rewrite app_nil_r. split; [reflexivity|]. reflexivity.
  - destruct (draw_one rs st g0) as [st1|] eqn:E1; simpl in H; [|discriminate].
    destruct (IH st1 H) as [Hs Hl].
    unfold draw_one in E1. destruct (store st !! g0) as [d0|] eqn:Ed0; simpl in E1; [|discriminate].
    injection E1 as <-. split.
    + intros g d Hd. destruct (Nat.eq_dec g g0) as [->|Hne].
      * rewrite Ed0 in Hd. injection Hd as <-.
        destruct (Hs g0 (set_dirty d0 [])) as (d' & ? & ? & ?); [apply lookup_insert_eq|].
        exists d'. simpl in *. tauto.
      * apply Hs. simpl. rewrite lookup_insert_ne by congruence. exact Hd.
    + destruct Hl as (new & Hl & Hw). simpl in Hl.
      revert Hl. destruct (Nat.ltb 0 _); intros Hl;
        (eexists; split; [rewrite Hl, <- !app_assoc; reflexivity|]);
        intros g; rewrite !wv_writes_app, Hw; reflexivity.
Qed.

Lemma draw_layers_keeps st L st' :
  draw_layers st L = Some st' ->
  (forall g d, store st !! g = Some d ->
     exists d', store st' !! g = Some d' /\ visible d' = visible d /\
                was_visible d' = was_visible d) /\
  exists new, log st' = log st ++ new /\ forall g, wv_writes g new = 0%nat.
Proof.
  revert st. induction L as [|[gs rs] L IH]; intros st H; simpl in H.
  - injection H as <-. split; [intros g d Hd; exists d; tauto|].
    exists []. rewrite app_nil_r. split; reflexivity.
  - destruct (draw_layer rs st gs) as [st1|] eqn:E1; simpl in H; [|discriminate].
    destruct (draw_layer_keeps _ _ _ _ E1) as [Hs1 (n1 & Hl1 & Hw1)].
    destruct (IH _ H) as [Hs2 (n2 & Hl2 & Hw2)]. split.
    + intros g d Hd. destruct (Hs1 g d Hd) as (d1 & Hd1 & ? & ?).
      destruct (Hs2 g d1 Hd1) as (d2 & ? & ? & ?). exists d2. split; [assumption|]. split; congruence.
    + exists (n1 ++ n2). split; [rewrite Hl2, Hl1, app_assoc; reflexivity|].
      intros g. rewrite wv_writes_app, Hw1, Hw2. reflexivity.
Qed.

(** An empty layer lets every dirty rectangle through its (vacuous) chain of
    clip/opacity tests: its [l_dirty_opaque] is the whole dirty list. *)
Lemma layer_opaque_empty st dirty : layer_opaque st [] dirty = Some dirty.
Proof.
  induction dirty as [|r rs IH]; simpl; [reflexivity|]. rewrite IH. reflexivity.
Qed.

(** C8 (amended): after a [fastdraw] call (fast path or not, whether the
    graphic had dirty rectangles or not), every graphic of the layers has
    [was_visible] equal to the [visible] it had during the call, and the
    call wrote its [was_visible] once per listing of the graphic in the
    layers: at least once, and exactly once for a graphic listed once. *)
Theorem fastdraw_was_visible layers_in graphics_in st graphics res st' :
  mapM (fun l => graphics_in !! l) layers_in = Some graphics ->
  fastdraw layers_in graphics_in st = Some (res, st') ->
  forall g, In g (concat graphics) ->
    (exists d0 d, store st !! g = Some d0 /\ store st' !! g = Some d /\
                  was_visible d = visible d0) /\
    (exists new, log st' = log st ++ new /\
                 wv_writes g new = occurrences g (concat graphics) /\
                 (1 <= wv_writes g new)%nat).
Proof.
  intros Hm H g Hin. unfold fastdraw in H. rewrite Hm in H. simpl in H.
  destruct (collect st graphics) as [st1|] eqn:Ec; simpl in H; [|discriminate].
  rewrite collect_concat in Ec.
  destruct (collect_layer_visited _ _ _ g Ec Hin) as [d0 Hd0].
  destruct (collect_layer_store _ _ _ Ec g d0 Hd0) as (d1 & Hd1 & _ & Hin1 & _).
  destruct (collect_layer_log _ _ _ Ec) as (n1 & Hl1 & Hw1 & _).
  assert (Hpos : (1 <= occurrences g (concat graphics))%nat).
  { unfold occurrences. destruct (List.filter (Nat.eqb g) (concat graphics)) eqn:Ef;
      [|simpl; lia].
    exfalso. assert (Hf : In g (List.filter (Nat.eqb g) (concat graphics))).
    { apply filter_In. split; [assumption|apply Nat.eqb_refl]. }
    rewrite Ef in Hf. contradiction. }
  destruct (dirty_acc st1) as [|r rs].
  - injection H as <- <-. split.
    + exists d0, d1. split; [assumption|]. split; [assumption|]. apply Hin1; assumption.
    + exists n1. rewrite (Hw1 g). split; [assumption|]. split; [reflexivity|assumption].
  - destruct (occlude st1 graphics (r :: rs) []) as [dbl|]; simpl in H; [|discriminate].
    destruct (draw_layers st1 _) as [st2|] eqn:Ed2; simpl in H; [|discriminate].
    injection H as <- <-.
    destruct (draw_layers_keeps _ _ _ Ed2) as [Hs2 (n2 & Hl2 & Hw2)].
    destruct (Hs2 _ _ Hd1) as (d2 & Hd2 & _ & Hwv2). split.
    + exists d0, d2. split; [assumption|]. split; [assumption|].
      rewrite Hwv2. apply Hin1; assumption.
    + exists (n1 ++ n2). split; [rewrite Hl2, Hl1, app_assoc; reflexivity|].
      rewrite wv_writes_app, Hw1, Hw2, Nat.add_0_r. split; [reflexivity|assumption].
Qed.

(** C9: when the dirty list is empty after collection, [fastdraw] returns
    the no-work result (which differs from an empty rectangle list) in the
    state left by collection, and the call issued no [draw]. *)
Theorem fastdraw_no_work layers_in graphics_in st graphics st1 :
  mapM (fun l => graphics_in !! l) layers_in = Some graphics ->
  collect st graphics = Some st1 ->
  dirty_acc st1 = [] ->
  fastdraw layers_in graphics_in st = Some (NoWork, st1) /\ NoWork <> Drawn [] /\
  exists new, log st1 = log st ++ new /\ forall g rs, ~ In (Draw g rs) new.
Proof.
  intros Hm Hc Hd. split.
  - unfold fastdraw. rewrite Hm. simpl. rewrite Hc. simpl. rewrite Hd. reflexivity.
  - split; [discriminate|].
    rewrite collect_concat in Hc.
    destruct (collect_layer_log _ _ _ Hc) as (new & Hl & _ & Hf).
    exists new. split; [assumption|]. intros g rs Hin.
    rewrite List.Forall_forall in Hf. destruct (Hf _ Hin) as (g' & b & E). discriminate.
Qed.

(** Concrete inputs.  Graphic 7: visible now and before, at (0,0,10,10),
    dirty over its whole area, not opaque; layer 0 is empty, layer 1 holds
    graphic 7. *)
Definition ex_r : rect := mkRect 0 0 10 10.

Definition ex_graphic : drawable :=
  mkDrawable true true ex_r ex_r [ex_r] (fun _ => false).

Definition ex_graphics_in : gmap nat (list nat) :=
  <[0%nat := []]> (<[1%nat := [7%nat]]> ∅).

Definition ex_state : fstate := mkFState (<[7%nat := ex_graphic]> ∅) [] [].

Definition ex_state_after : fstate :=
  mkFState (<[7%nat := set_dirty (set_was_visible ex_graphic true) []]> ∅)
           [ex_r; ex_r] [SetWasVisible 7 true; Draw 7 [ex_r]; SetDirty 7].

(** Graphic 8: visible, not visible before, nothing dirty. *)
Definition ex_quiet : drawable :=
  mkDrawable true false ex_r ex_r [] (fun _ => false).

Definition ex_quiet_state : fstate := mkFState (<[8%nat := ex_quiet]> ∅) [] [].

Definition ex_quiet_after : fstate :=
  mkFState (<[8%nat := set_was_visible ex_quiet true]> ∅) [] [SetWasVisible 8 true].

(** Graphic 9: visible, at (0,0,10,10), dirty rectangle (20,20,5,5) outside
    its area. *)
Definition ex_far : drawable :=
  mkDrawable true false ex_r ex_r [mkRect 20 20 5 5] (fun _ => false).

Definition ex_far_state : fstate := mkFState (<[9%nat := ex_far]> ∅) [] [].

Definition ex_far_after : fstate :=
  mkFState (<[9%nat := set_dirty (set_was_visible ex_far true) []]> ∅)
           [mkRect 20 20 0 0] [SetWasVisible 9 true; SetDirty 9].

(** Graphic 8 listed in both layers 0 and 1. *)
Definition ex_twice_in : gmap nat (list nat) :=
  <[0%nat := [8%nat]]> (<[1%nat := [8%nat]]> ∅).

Definition ex_twice_after : fstate :=
  mkFState (<[8%nat := set_was_visible ex_quiet true]> ∅) []
           [SetWasVisible 8 true; SetWasVisible 8 true].

(** C8 (fails as stated): a graphic listed in two layers is visited by the
    collection loop of each, so its [was_visible] is written twice. *)
Lemma fastdraw_was_visible_twice :
  fastdraw [0%nat; 1%nat] ex_twice_in ex_quiet_state = Some (NoWork, ex_twice_after) /\
  wv_writes 8 (log ex_twice_after) = 2%nat.
Proof. split; reflexivity. Qed.

Lemma fastdraw_was_visible_witness :
  (mapM (fun l => ex_twice_in !! l) [0%nat; 1%nat] = Some [[8%nat]; [8%nat]] /\
   fastdraw [0%nat; 1%nat] ex_twice_in ex_quiet_state = Some (NoWork, ex_twice_after) /\
   In 8%nat (concat [[8%nat]; [8%nat]])) /\
  ((exists d0 d, store ex_quiet_state !! 8%nat = Some d0 /\
                 store ex_twice_after !! 8%nat = Some d /\ was_visible d = visible d0) /\
   (exists new, log ex_twice_after = log ex_quiet_state ++ new /\
                wv_writes 8 new = occurrences 8 (concat [[8%nat]; [8%nat]]) /\
                (1 <= wv_writes 8 new)%nat)).
Proof.
  split; [split; [reflexivity|]; split; [reflexivity|simpl; tauto]|].
  apply (fastdraw_was_visible [0%nat; 1%nat] ex_twice_in ex_quiet_state [[8%nat]; [8%nat]]
           NoWork ex_twice_after).
  - reflexivity.
  - reflexivity.
  - simpl; tauto.
Defined.

Lemma fastdraw_no_work_witness :
  (mapM (fun l => (<[0%nat := [8%nat]]> ∅ : gmap nat (list nat)) !! l) [0%nat] = Some [[8%nat]] /\
   collect ex_quiet_state [[8%nat]] = Some ex_quiet_after /\
   dirty_acc ex_quiet_after = []) /\
  (fastdraw [0%nat] (<[0%nat := [8%nat]]> ∅) ex_quiet_state = Some (NoWork, ex_quiet_after) /\
   NoWork <> Drawn [] /\
   exists new, log ex_quiet_after = log ex_quiet_state ++ new /\
               forall g rs, ~ In (Draw g rs) new).
Proof.
  split; [split; [reflexivity|]; split; reflexivity|].
  apply (fastdraw_no_work [0%nat] (<[0%nat := [8%nat]]> ∅) ex_quiet_state [[8%nat]]
           ex_quiet_after); reflexivity.
Defined.

(** C5 (fails): layer 0 is empty, so the whole dirty list [[r; r]] (graphic
    7 is visible now and was before, so its dirty rectangle is clipped
    twice) joins the opaque set; layer 1 then gets
    [mk_disjoint [r; r] [r; r] = [r]], because the two removals toggle the
    cell back, and graphic 7 is drawn. *)
Theorem fastdraw_below_empty_layer :
  (st1 ← collect ex_state [[]; [7%nat]];
   occlude st1 [[]; [7%nat]] (dirty_acc st1) []) = Some [[ex_r]; [ex_r]] /\
  fastdraw [0%nat; 1%nat] ex_graphics_in ex_state = Some (Drawn [ex_r; ex_r], ex_state_after) /\
  In (Draw 7 [ex_r]) (log ex_state_after).
Proof. split; [reflexivity|]. split; [reflexivity|]. simpl; tauto. Qed.

(** C6 (fails): the dirty rectangle (20,20,5,5) of graphic 9 misses its
    rectangle (0,0,10,10); [clip] gives the zero-size (20,20,0,0), which is
    appended to the dirty list all the same.  The list is then non-empty, so
    the call skips the no-work path and returns an empty rectangle list. *)
Theorem fastdraw_appends_empty_clip :
  clip (mkRect 20 20 5 5) ex_r = mkRect 20 20 0 0 /\
  collect ex_far_state [[9%nat]] =
    Some (mkFState (<[9%nat := set_was_visible ex_far true]> ∅) [mkRect 20 20 0 0]
                   [SetWasVisible 9 true]) /\
  fastdraw [0%nat] (<[0%nat := [9%nat]]> ∅) ex_far_state = Some (Drawn [], ex_far_after).
Proof. split; [reflexivity|]. split; reflexivity. Qed.


(** ** Further properties of the code *)

(** *** [find] *)

Lemma find_loop_spec arr n x fuel i :
  0 <= i -> Z.to_nat (n - i) = fuel ->
  (find_loop arr n x i fuel = -1 /\
   forall k, i <= k < n -> nth (Z.to_nat k) arr 0 <> x) \/
  (i <= find_loop arr n x i fuel < n /\
   nth (Z.to_nat (find_loop arr n x i fuel)) arr 0 = x /\
   forall k, i <= k < find_loop arr n x i fuel -> nth (Z.to_nat k) arr 0 <> x).
Proof.
  revert i. induction fuel as [|f IH]; intros i Hi Hf; simpl.
  - left. split; [reflexivity|]. intros k Hk. lia.
  - destruct (Z.ltb_spec i n) as [Hin|Hin]; [|lia].
    destruct (Z.eqb_spec (nth (Z.to_nat i) arr 0) x) as [Hx|Hx].
    + right. split; [lia|]. split; [exact Hx|]. intros k Hk. lia.
    + destruct (IH (i + 1) ltac:(lia) ltac:(lia)) as [[H1 H2]|(H1 & H2 & H3)].
      * left. split; [exact H1|]. intros k Hk.
        destruct (Z.eq_dec k i) as [->|]; [exact Hx|]. apply H2. lia.
      * right. split; [lia|]. split; [exact H2|]. intros k Hk.
        destruct (Z.eq_dec k i) as [->|]; [exact Hx|]. apply H3. lia.
Qed.

(** [find(arr, n, x, i)] from a start [i >= 0] returns [-1] exactly when no
    entry of [arr[i..n-1]] is [x], and otherwise the first index in
    [i..n-1] holding [x]. *)
Theorem find_spec arr n x i :
  0 <= i ->
  (find arr n x i = -1 /\ forall k, i <= k < n -> nth (Z.to_nat k) arr 0 <> x) \/
  (i <= find arr n x i < n /\ nth (Z.to_nat (find arr n x i)) arr 0 = x /\
   forall k, i <= k < find arr n x i -> nth (Z.to_nat k) arr 0 <> x).
Proof. intros Hi. unfold find. apply find_loop_spec; [exact Hi | reflexivity]. Qed.

Lemma find_spec_witness :
  0 <= 1 /\
  ((find [5; 7; 5] 3 5 1 = -1 /\ forall k, 1 <= k < 3 -> nth (Z.to_nat k) [5; 7; 5] 0 <> 5) \/
   (1 <= find [5; 7; 5] 3 5 1 < 3 /\ nth (Z.to_nat (find [5; 7; 5] 3 5 1)) [5; 7; 5] 0 = 5 /\
    forall k, 1 <= k < find [5; 7; 5] 3 5 1 -> nth (Z.to_nat k) [5; 7; 5] 0 <> 5)).
Proof. split; [lia|]. apply (find_spec [5; 7; 5] 3 5 1). lia. Defined.

(** *** [set_add] and the edge arrays *)

(** [set_add] keeps the used prefix free of duplicates, makes [x] a member,
    keeps the old members, and grows the prefix by at most one entry. *)
Theorem set_add_distinct arr x :
  NoDup arr ->
  NoDup (set_add arr x) /\ In x (set_add arr x) /\
  (forall y, In y arr -> In y (set_add arr x)) /\
  (length (set_add arr x) <= S (length arr))%nat.
Proof.
  intros Hnd. split; [apply set_add_NoDup; exact Hnd|].
  split; [apply set_add_In; right; reflexivity|].
  split; [intros y Hy; apply set_add_In; left; exact Hy|].
  unfold set_add. destruct (set_add_seen arr x); [lia|].
  rewrite length_app. simpl. lia.
Qed.

Lemma set_add_distinct_witness :
  NoDup ([1; 2] : list Z) /\
  (NoDup (set_add [1; 2] 3) /\ In 3 (set_add [1; 2] 3) /\
   (forall y, In y [1; 2] -> In y (set_add [1; 2] 3)) /\
   le (length (set_add [1; 2] 3)) (S (length ([1; 2] : list Z)))).
Proof.
  split; [apply NoDup_cons; split; [set_solver|apply NoDup_singleton]|].
  apply set_add_distinct. apply NoDup_cons; split; [set_solver|apply NoDup_singleton].
Defined.

Lemma fold_edges_length rs e :
  (length (fold_left add_rect_edges rs e).1 <= length e.1 + 2 * length rs)%nat /\
  (length (fold_left add_rect_edges rs e).2 <= length e.2 + 2 * length rs)%nat.
Proof.
  revert e. induction rs as [|r rs IH]; intros [ex ey]; simpl; [lia|].
  destruct (IH (set_add (set_add ex (rx r)) (rx r + rw r),
                set_add (set_add ey (ry r)) (ry r + rh r))) as [H1 H2].
  simpl in H1, H2.
  assert (forall a b, (length (set_add a b) <= S (length a))%nat) as Hs.
  { intros a b. unfold set_add. destruct (set_add_seen a b); [lia|].
    rewrite length_app. simpl. lia. }
  pose proof (Hs ex (rx r)). pose proof (Hs (set_add ex (rx r)) (rx r + rw r)).
  pose proof (Hs ey (ry r)). pose proof (Hs (set_add ey (ry r)) (ry r + rh r)).
  split; lia.
Qed.

Lemma fold_edges_only rs e y :
  (In y (fold_left add_rect_edges rs e).1 ->
     In y e.1 \/ exists r, In r rs /\ (y = rx r \/ y = rx r + rw r)) /\
  (In y (fold_left add_rect_edges rs e).2 ->
     In y e.2 \/ exists r, In r rs /\ (y = ry r \/ y = ry r + rh r)).
Proof.
  revert e. induction rs as [|r rs IH]; intros [ex ey]; simpl; [tauto|].
  destruct (IH (set_add (set_add ex (rx r)) (rx r + rw r),
                set_add (set_add ey (ry r)) (ry r + rh r))) as [H1 H2].
  simpl in H1, H2. rewrite !set_add_In in H1, H2. split.
  - intros Hy. destruct (H1 Hy) as [[[?|?]|?]|(r' & ? & ?)]; eauto 7.
  - intros Hy. destruct (H2 Hy) as [[[?|?]|?]|(r' & ? & ?)]; eauto 7.
Qed.

(** The edge arrays of [mk_disjoint] hold pairwise distinct values, exactly
    the left/right (resp. top/bottom) coordinates of the input rectangles,
    and never more than the [2 * (n_rects[0] + n_rects[1])] entries
    allocated for them. *)
Theorem get_edges_spec add rm :
  let '(ex, ey) := get_edges add rm in
  NoDup ex /\ NoDup ey /\
  (length ex <= 2 * (length add + length rm))%nat /\
  (length ey <= 2 * (length add + length rm))%nat /\
  (forall x, In x ex <-> exists r, In r (add ++ rm) /\ (x = rx r \/ x = rx r + rw r)) /\
  (forall y, In y ey <-> exists r, In r (add ++ rm) /\ (y = ry r \/ y = ry r + rh r)).
Proof.
  destruct (get_edges add rm) as [ex ey] eqn:E.
  destruct (get_edges_NoDup _ _ _ _ E) as [Hx Hy].
  pose proof (fold_edges_length (add ++ rm) ([], [])) as Hl.
  pose proof (get_edges_contains add rm) as Hc. rewrite E in Hc.
  unfold get_edges in E. rewrite E in Hl. simpl in Hl, Hc.
  rewrite length_app in Hl. rewrite List.Forall_forall in Hc.
  split; [exact Hx|]. split; [exact Hy|]. split; [lia|]. split; [lia|]. split.
  - intros x. split.
    + intros Hin. destruct (proj1 (fold_edges_only (add ++ rm) ([], []) x)) as [[]|?];
        [rewrite E; exact Hin|assumption].
    + intros (r & Hr & [-> | ->]); apply (Hc r Hr).
  - intros y. split.
    + intros Hin. destruct (proj2 (fold_edges_only (add ++ rm) ([], []) y)) as [[]|?];
        [rewrite E; exact Hin|assumption].
    + intros (r & Hr & [-> | ->]); apply (Hc r Hr).
Qed.

(** *** pygame's [clip] stays inside both arguments *)

(** [a] lies inside [b]. *)
Definition inside (a b : rect) : Prop :=
  rx b <= rx a /\ rx a + rw a <= rx b + rw b /\
  ry b <= ry a /\ ry a + rh a <= ry b + rh b.

Lemma inside_trans a b c : inside a b -> inside b c -> inside a c.
Proof. unfold inside. lia. Qed.

Lemma clip_inside A B :
  positive_area (clip A B) = true -> inside (clip A B) A /\ inside (clip A B) B.
Proof.
  unfold clip, positive_area, inside.
  repeat match goal with
         | |- context [if ?c then _ else _] => destruct c eqn:?
         end;
    simpl; intros Hp; rewrite ?andb_true_iff, ?andb_false_iff in *;
    rewrite ?Z.ltb_lt, ?Z.leb_le, ?Z.ltb_ge, ?Z.leb_gt in *; lia.
Qed.

(** *** What [fastdraw] changes in the graphics *)

(** A graphic with [was_visible] (resp. [dirty] and [was_visible]) blanked. *)
Definition erase_wv (d : drawable) : drawable := set_was_visible d false.
Definition erase_dw (d : drawable) : drawable := set_dirty (set_was_visible d false) [].

Lemma collect_one_shape st g st' :
  collect_one st g = Some st' ->
  erase_wv <$> store st' = erase_wv <$> store st /\
  exists app, dirty_acc st' = dirty_acc st ++ app.
Proof.
  unfold collect_one. destruct (store st !! g) as [d|] eqn:Ed; simpl; [|discriminate].
  intros H. injection H as <-. simpl. split.
  - rewrite fmap_insert. apply insert_id. rewrite lookup_fmap, Ed. reflexivity.
  - destruct (was_visible d), (visible d).
    + eexists. rewrite <- app_assoc. reflexivity.
    + eexists. reflexivity.
    + eexists. reflexivity.
    + exists []. symmetry. apply app_nil_r.
Qed.

Lemma collect_layer_shape st gs st' :
  collect_layer st gs = Some st' ->
  erase_wv <$> store st' = erase_wv <$> store st /\
  exists app, dirty_acc st' = dirty_acc st ++ app.
Proof.
  revert st. induction gs as [|g gs IH]; intros st H; simpl in H.
  - injection H as <-. split; [reflexivity|]. exists []. symmetry; apply app_nil_r.
  - destruct (collect_one st g) as [st1|] eqn:E1; simpl in H; [|discriminate].
    destruct (collect_one_shape _ _ _ E1) as [Hs1 (a1 & Ha1)].
    destruct (IH _ H) as [Hs2 (a2 & Ha2)]. split; [congruence|].
    exists (a1 ++ a2). rewrite Ha2, Ha1, app_assoc. reflexivity.
Qed.

Lemma erase_wv_dw (s1 s2 : gmap nat drawable) :
  erase_wv <$> s1 = erase_wv <$> s2 -> erase_dw <$> s1 = erase_dw <$> s2.
Proof.
  intros H. apply map_eq. intros i. pose proof (f_equal (lookup i) H) as Hi.
  rewrite !lookup_fmap in Hi |- *.
  destruct (s1 !! i) as [d1|], (s2 !! i) as [d2|]; simpl in *; try discriminate; [|reflexivity].
  apply (inj Some) in Hi. unfold erase_dw. change (set_was_visible d1 false) with (erase_wv d1).
  change (set_was_visible d2 false) with (erase_wv d2). rewrite Hi. reflexivity.
Qed.

Lemma erase_dw_lookup (s1 s2 : gmap nat drawable) g d1 :
  erase_dw <$> s1 = erase_dw <$> s2 -> s1 !! g = Some d1 ->
  exists d2, s2 !! g = Some d2 /\ erase_dw d2 = erase_dw d1.
Proof.
  intros H Hd. pose proof (f_equal (lookup g) H) as Hg. rewrite !lookup_fmap, Hd in Hg.
  destruct (s2 !! g) as [d2|]; simpl in Hg; [|discriminate].
  apply (inj Some) in Hg. exists d2. split; [reflexivity|]. symmetry; exact Hg.
Qed.

(** A [draw] call of the redraw pass, judged against the graphics [s]: a
    non-empty list of positive-area rectangles inside the graphic's [_rect]. *)
Definition good_draw (s : gmap nat drawable) (e : event) : Prop :=
  match e with
  | Draw g rs => rs <> [] /\ exists d, s !! g = Some d /\
                 Forall (fun r => positive_area r = true /\ inside r (g_rect d)) rs
  | _ => True
  end.

Lemma good_draw_erase (s1 s2 : gmap nat drawable) e :
  erase_dw <$> s1 = erase_dw <$> s2 -> good_draw s1 e -> good_draw s2 e.
Proof.
  destruct e as [| |g rs]; simpl; try tauto.
  intros Hs [Hne (d & Hd & Hf)]. split; [exact Hne|].
  destruct (erase_dw_lookup _ _ _ _ Hs Hd) as (d2 & Hd2 & He).
  exists d2. split; [exact Hd2|].
  assert (g_rect d2 = g_rect d) as -> by (apply (f_equal g_rect) in He; exact He).
  exact Hf.
Qed.

(** One redraw step: the graphic's [dirty] is emptied, nothing else of the
    graphics changes, the caller's list is untouched, and the [draw] call it
    makes (if any) is a good one. *)
Lemma draw_one_shape rs st g st' :
  draw_one rs st g = Some st' ->
  erase_dw <$> store st' = erase_dw <$> store st /\ dirty_acc st' = dirty_acc st /\
  (exists new, log st' = log st ++ new /\ Forall (good_draw (store st)) new) /\
  (forall h, h <> g -> store st' !! h = store st !! h) /\
  (exists d, store st' !! g = Some d /\ dirty d = []).
Proof.
  unfold draw_one. intros H.
  destruct (store st !! g) as [d|] eqn:Ed; simpl in H; [|discriminate].
  injection H as <-. cbn [store dirty_acc log].
  split; [|split; [reflexivity|split; [|split]]].
  - rewrite fmap_insert. change (erase_dw (set_dirty d [])) with (erase_dw d).
    apply insert_id. rewrite lookup_fmap, Ed. reflexivity.
  - match goal with |- context [Nat.ltb 0 (length ?l)] =>
      destruct (Nat.ltb_spec 0 (length l)) as [Hl|Hl] end.
    + eexists. split; [rewrite <- app_assoc; reflexivity|].
      constructor; [|constructor; [exact I|constructor]].
      split; [intros E; rewrite E in Hl; simpl in Hl; lia|].
      exists d. split; [exact Ed|].
      apply List.Forall_forall. intros r Hr.
      apply list_elem_of_In, list_elem_of_filter in Hr as [Hp Hm].
      apply list_elem_of_In, in_map_iff in Hm as (r0 & <- & _).
      split; [exact Hp|]. exact (proj1 (clip_inside _ _ Hp)).
    + eexists. split; [reflexivity|]. repeat constructor.
  - intros h Hh. apply lookup_insert_ne. congruence.
  - exists (set_dirty d []). split; [apply lookup_insert_eq|reflexivity].
Qed.

Lemma draw_layer_shape rs st gs st' :
  draw_layer rs st gs = Some st' ->
  erase_dw <$> store st' = erase_dw <$> store st /\ dirty_acc st' = dirty_acc st /\
  (exists new, log st' = log st ++ new /\ Forall (good_draw (store st)) new) /\
  (forall h, ~ In h gs -> store st' !! h = store st !! h) /\
  (forall h d, store st !! h = Some d -> dirty d = [] ->
     exists d', store st' !! h = Some d' /\ dirty d' = []) /\
  (forall h, In h gs -> exists d, store st' !! h = Some d /\ dirty d = []).
Proof.
  revert st. induction gs as [|g0 gs IH]; intros st H; simpl in H.
  - injection H as <-. split; [reflexivity|split; [reflexivity|]].
    split; [exists []; rewrite app_nil_r; split; [reflexivity|constructor]|].
    split; [reflexivity|]. split; [eauto|]. intros h [].
  - destruct (draw_one rs st g0) as [st1|] eqn:E1; simpl in H; [|discriminate].
    destruct (draw_one_shape _ _ _ _ E1) as (Hs1 & Ha1 & (n1 & Hl1 & Hg1) & Hk1 & (d1 & Hd1 & Hz1)).
    destruct (IH _ H) as (Hs2 & Ha2 & (n2 & Hl2 & Hg2) & Hk2 & Hz2 & Hin2).
    split; [congruence|]. split; [congruence|]. split.
    { exists (n1 ++ n2). split; [rewrite Hl2, Hl1, app_assoc; reflexivity|].
      apply Forall_app. split; [exact Hg1|].
      eapply List.Forall_impl; [|exact Hg2]. intros e. apply good_draw_erase. exact Hs1. }
    split.
    { intros h Hh. rewrite Hk2 by (intros Hi; apply Hh; right; exact Hi).
      apply Hk1. intros ->. apply Hh. left. reflexivity. }
    split.
    { intros h d Hd Hz. destruct (Nat.eq_dec h g0) as [->|Hne].
      - exact (Hz2 _ _ Hd1 Hz1).
      - apply (Hz2 h d); [rewrite Hk1 by exact Hne; exact Hd|exact Hz]. }
    intros h [->|Hh]; [exact (Hz2 _ _ Hd1 Hz1)|exact (Hin2 h Hh)].
Qed.

Lemma draw_layers_shape st L st' :
  draw_layers st L = Some st' ->
  erase_dw <$> store st' = erase_dw <$> store st /\ dirty_acc st' = dirty_acc st /\
  (exists new, log st' = log st ++ new /\ Forall (good_draw (store st)) new) /\
  (forall h d, store st !! h = Some d -> dirty d = [] ->
     exists d', store st' !! h = Some d' /\ dirty d' = []) /\
  (forall p h, In p L -> In h p.1 -> exists d, store st' !! h = Some d /\ dirty d = []).
Proof.
  revert st. induction L as [|[gs rs] L IH]; intros st H; simpl in H.
  - injection H as <-. split; [reflexivity|split; [reflexivity|]].
    split; [exists []; rewrite app_nil_r; split; [reflexivity|constructor]|].
    split; [eauto|]. intros p h [].
  - destruct (draw_layer rs st gs) as [st1|] eqn:E1; simpl in H; [|discriminate].
    destruct (draw_layer_shape _ _ _ _ E1) as (Hs1 & Ha1 & (n1 & Hl1 & Hg1) & _ & Hz1 & Hin1).
    destruct (IH _ H) as (Hs2 & Ha2 & (n2 & Hl2 & Hg2) & Hz2 & Hin2).
    split; [congruence|]. split; [congruence|]. split.
    { exists (n1 ++ n2). split; [rewrite Hl2, Hl1, app_assoc; reflexivity|].
      apply Forall_app. split; [exact Hg1|].
      eapply List.Forall_impl; [|exact Hg2]. intros e. apply good_draw_erase. exact Hs1. }
    split.
    { intros h d Hd Hz. destruct (Hz1 h d Hd Hz) as (d1 & Hd1 & Hz1').
      exact (Hz2 _ _ Hd1 Hz1'). }
    intros p h [<-|Hp] Hh.
    + destruct (Hin1 h Hh) as (d1 & Hd1 & Hz). exact (Hz2 _ _ Hd1 Hz).
    + exact (Hin2 p h Hp Hh).
Qed.

Lemma inside_refl a : inside a a.
Proof. unfold inside. lia. Qed.

(** The rectangles [mk_disjoint] returns have positive width and height. *)
Lemma mk_disjoint_out_positive add rm out :
  mk_disjoint add rm = Some out -> Forall (fun r => 0 < rw r /\ 0 < rh r) out.
Proof.
  intros H. apply mk_disjoint_emitted in H as (ex & ey & grid & Hx & Hy & H).
  apply emit_rows_cells in H as (ps & -> & _ & Hr).
  apply Forall_map. apply (Forall_impl _ _ _ Hr). intros [i j] Hij.
  apply cell_positive; [assumption|assumption|]. unfold in_grid. simpl in *. lia.
Qed.

Lemma occlude_length st gs dirty opaque dbl :
  occlude st gs dirty opaque = Some dbl -> length dbl = length gs.
Proof.
  revert opaque dbl. induction gs as [|g gs IH]; intros opaque dbl H; simpl in H.
  - injection H as <-. reflexivity.
  - destruct (layer_opaque st g dirty) as [lo|]; simpl in H; [|discriminate].
    destruct (mk_disjoint dirty opaque) as [d|]; simpl in H; [|discriminate].
    destruct (occlude st gs dirty (opaque ++ lo)) as [tl|] eqn:E; simpl in H; [|discriminate].
    injection H as <-. simpl. f_equal. exact (IH _ _ E).
Qed.

Lemma occlude_positive st gs dirty opaque dbl :
  occlude st gs dirty opaque = Some dbl ->
  Forall (Forall (fun r => 0 < rw r /\ 0 < rh r)) dbl.
Proof.
  revert opaque dbl. induction gs as [|g gs IH]; intros opaque dbl H; simpl in H.
  - injection H as <-. constructor.
  - destruct (layer_opaque st g dirty) as [lo|]; simpl in H; [|discriminate].
    destruct (mk_disjoint dirty opaque) as [d|] eqn:Ed; simpl in H; [|discriminate].
    destruct (occlude st gs dirty (opaque ++ lo)) as [tl|] eqn:E; simpl in H; [|discriminate].
    injection H as <-. constructor; [exact (mk_disjoint_out_positive _ _ _ Ed)|exact (IH _ _ E)].
Qed.

Lemma zip_concat_In (gss : list (list nat)) (dbl : list (list rect)) g :
  length dbl = length gss -> In g (concat gss) ->
  exists p, In p (rev (zip gss dbl)) /\ In g p.1.
Proof.
  revert dbl. induction gss as [|gs gss IH]; intros [|d dbl] Hl Hin; simpl in *;
    try contradiction; try discriminate.
  apply in_app_or in Hin as [Hin|Hin].
  - exists (gs, d). split; [|exact Hin]. apply in_or_app. right. left. reflexivity.
  - destruct (IH dbl ltac:(lia) Hin) as (p & Hp & Hg). exists p. split; [|exact Hg].
    apply in_or_app. left. exact Hp.
Qed.

(** The two paths of [fastdraw]. *)
Lemma fastdraw_inv layers_in graphics_in st res st' :
  fastdraw layers_in graphics_in st = Some (res, st') ->
  exists graphics st1,
    mapM (fun l => graphics_in !! l) layers_in = Some graphics /\
    collect_layer st (concat graphics) = Some st1 /\
    ((dirty_acc st1 = [] /\ res = NoWork /\ st' = st1) \/
     (exists dbl, dirty_acc st1 <> [] /\
        occlude st1 graphics (dirty_acc st1) [] = Some dbl /\
        draw_layers st1 (rev (zip graphics dbl)) = Some st' /\
        res = Drawn (concat dbl))).
Proof.
  unfold fastdraw. intros H.
  destruct (mapM (fun l => graphics_in !! l) layers_in) as [graphics|] eqn:Em;
    simpl in H; [|discriminate].
  destruct (collect st graphics) as [st1|] eqn:Ec; simpl in H; [|discriminate].
  rewrite collect_concat in Ec. exists graphics, st1. split; [reflexivity|]. split; [exact Ec|].
  destruct (dirty_acc st1) as [|r rs] eqn:Ed.
  - injection H as <- <-. left. tauto.
  - destruct (occlude st1 graphics (r :: rs) []) as [dbl|] eqn:Eo; simpl in H; [|discriminate].
    destruct (draw_layers st1 (rev (zip graphics dbl))) as [st2|] eqn:Ed2;
      simpl in H; [|discriminate].
    injection H as <- <-. right. exists dbl. split; [discriminate|]. tauto.
Qed.

(** One collection step, written out. *)
Lemma collect_one_items st g st1 :
  collect_one st g = Some st1 ->
  exists d, store st !! g = Some d /\
    store st1 = <[g := set_was_visible d (visible d)]> (store st) /\
    dirty_acc st1 = dirty_acc st ++
      ((if was_visible d then map (fun r => clip r (last_rect d)) (dirty d) else []) ++
       (if visible d then map (fun r => clip r (g_rect d)) (dirty d) else [])).
Proof.
  unfold collect_one. intros H.
  destruct (store st !! g) as [d|] eqn:Ed; simpl in H; [|discriminate].
  injection H as <-. exists d. split; [reflexivity|]. split; [reflexivity|]. cbn [dirty_acc].
  destruct (was_visible d), (visible d); rewrite ?app_nil_l, ?app_nil_r, ?app_assoc; reflexivity.
Qed.

Lemma collect_layer_items st gs st' :
  collect_layer st gs = Some st' ->
  exists app, dirty_acc st' = dirty_acc st ++ app /\
    Forall (fun r => exists g d r0, In g gs /\ store st !! g = Some d /\ In r0 (dirty d) /\
                     (r = clip r0 (last_rect d) \/ r = clip r0 (g_rect d))) app.
Proof.
  revert st. induction gs as [|g0 gs IH]; intros st H; simpl in H.
  - injection H as <-. exists []. rewrite app_nil_r. split; [reflexivity|constructor].
  - destruct (collect_one st g0) as [st1|] eqn:E1; simpl in H; [|discriminate].
    destruct (collect_one_items _ _ _ E1) as (d0 & Hd0 & Hs1 & Ha1).
    destruct (IH _ H) as (app & Ha & Hf).
    eexists. split; [rewrite Ha, Ha1, <- app_assoc; reflexivity|].
    apply Forall_app. split; [apply Forall_app; split|].
    + destruct (was_visible d0); [|constructor].
      apply List.Forall_forall. intros r Hr. apply in_map_iff in Hr as (r0 & <- & Hr0).
      exists g0, d0, r0. split; [left; reflexivity|]. tauto.
    + destruct (visible d0); [|constructor].
      apply List.Forall_forall. intros r Hr. apply in_map_iff in Hr as (r0 & <- & Hr0).
      exists g0, d0, r0. split; [left; reflexivity|]. tauto.
    + eapply List.Forall_impl; [|exact Hf]. intros r (g & d & r0 & Hg & Hd & Hr0 & Hr).
      rewrite Hs1 in Hd. destruct (Nat.eq_dec g g0) as [->|Hne].
      * rewrite lookup_insert_eq in Hd. injection Hd as <-.
        exists g0, d0, r0. split; [left; reflexivity|]. simpl in *. tauto.
      * rewrite lookup_insert_ne in Hd by congruence.
        exists g, d, r0. split; [right; exact Hg|]. tauto.
Qed.

(** If collection leaves the caller's list empty, every visited graphic had
    no dirty rectangle or was invisible both now and before. *)
Lemma collect_layer_quiet st gs st' :
  collect_layer st gs = Some st' -> dirty_acc st' = [] ->
  forall g d, In g gs -> store st !! g = Some d ->
    dirty d = [] \/ (was_visible d = false /\ visible d = false).
Proof.
  revert st. induction gs as [|g0 gs IH]; intros st H Hnil g d Hin Hd; simpl in H;
    [contradiction|].
  destruct (collect_one st g0) as [st1|] eqn:E1; simpl in H; [|discriminate].
  destruct (collect_one_items _ _ _ E1) as (d0 & Hd0 & Hs1 & Ha1).
  destruct (collect_layer_shape _ _ _ H) as [_ (app & Ha)].
  rewrite Hnil in Ha. symmetry in Ha. apply app_eq_nil in Ha as [Ha1' _].
  destruct (Nat.eq_dec g g0) as [->|Hne].
  - rewrite Hd0 in Hd. injection Hd as <-. rewrite Ha1' in Ha1.
    destruct (dirty d0) as [|r rs] eqn:Edd; [left; reflexivity|right].
    destruct (was_visible d0), (visible d0); simpl in Ha1;
      try (symmetry in Ha1; apply app_eq_nil in Ha1 as [_ Ha1]; discriminate);
      [split; reflexivity].
  - destruct Hin as [->|Hin]; [congruence|].
    apply (IH st1 H Hnil g d Hin). rewrite Hs1, lookup_insert_ne by congruence. exact Hd.
Qed.

(** A chain of clip/opacity tests over a non-empty layer that ends good. *)
Lemma opaque_chain_good st gs r b r' :
  opaque_chain st gs r b = Some (r', true) -> gs <> [] ->
  positive_area r' = true /\ inside r' r /\
  forall g, In g gs -> exists d, store st !! g = Some d /\ inside r' (g_rect d) /\
    exists rk, inside r' rk /\ opaque_in d rk = true.
Proof.
  revert r b. induction gs as [|g0 gs IH]; intros r b H Hne; [congruence|].
  simpl in H. destruct (store st !! g0) as [d0|] eqn:Ed0; simpl in H; [|discriminate].
  set (r1 := clip r (g_rect d0)) in H.
  destruct ((rw r1 >? 0) && (rh r1 >? 0) && opaque_in d0 r1) eqn:Eg; [|discriminate].
  apply andb_true_iff in Eg as [Eg Eo]. apply andb_true_iff in Eg as [Ew Eh].
  apply Z.gtb_lt in Ew. apply Z.gtb_lt in Eh.
  assert (Hp1 : positive_area r1 = true).
  { unfold positive_area. apply andb_true_iff. split; apply Z.ltb_lt; assumption. }
  destruct (clip_inside r (g_rect d0) Hp1) as [Hi1 Hi2]. fold r1 in Hi1, Hi2.
  destruct gs as [|g1 gs'].
  - simpl in H. injection H as <-. split; [exact Hp1|]. split; [exact Hi1|].
    intros g [<-|[]]. exists d0. split; [exact Ed0|]. split; [exact Hi2|].
    exists r1. split; [apply inside_refl|exact Eo].
  - destruct (IH r1 true H ltac:(discriminate)) as (Hp & Hi & Hall).
    split; [exact Hp|]. split; [exact (inside_trans _ _ _ Hi Hi1)|].
    intros g [<-|Hg].
    + exists d0. split; [exact Ed0|]. split; [exact (inside_trans _ _ _ Hi Hi2)|].
      exists r1. split; [exact Hi|exact Eo].
    + exact (Hall g Hg).
Qed.

(** Graphic 5: opaque everywhere, at (0,0,10,10). *)
Definition ex_opaque : drawable :=
  mkDrawable true true ex_r ex_r [] (fun _ => true).

Definition ex_opaque_state : fstate := mkFState (<[5%nat := ex_opaque]> ∅) [] [].

(** ** Further properties of [mk_disjoint] and [fastdraw] *)

(** Occlusion (lines 228-253): over a non-empty layer, every rectangle put
    in [l_dirty_opaque] has positive area, lies inside one of the dirty
    rectangles and inside the [_rect] of each graphic of the layer, and each
    graphic's [opaque_in] answered true for a rectangle containing it. *)
Theorem layer_opaque_spec st gs dirty ops :
  gs <> [] -> layer_opaque st gs dirty = Some ops ->
  Forall (fun r => positive_area r = true /\ (exists r0, In r0 dirty /\ inside r r0) /\
    forall g, In g gs -> exists d, store st !! g = Some d /\ inside r (g_rect d) /\
      exists rk, inside r rk /\ opaque_in d rk = true) ops.
Proof.
  intros Hne. revert ops. induction dirty as [|r rs IH]; intros ops H; simpl in H.
  - injection H as <-. constructor.
  - destruct (opaque_chain st gs r true) as [[r' good]|] eqn:Ec; [|discriminate].
    destruct (layer_opaque st gs rs) as [rest|]; simpl in H; [|discriminate].
    injection H as <-.
    assert (Hrest : Forall (fun x => positive_area x = true /\
        (exists r0, In r0 (r :: rs) /\ inside x r0) /\
        forall g, In g gs -> exists d, store st !! g = Some d /\ inside x (g_rect d) /\
          exists rk, inside x rk /\ opaque_in d rk = true) rest).
    { eapply List.Forall_impl; [|exact (IH rest eq_refl)].
      intros x (Hp & (r0 & Hr0 & Hi) & Hg). split; [exact Hp|]. split; [|exact Hg].
      exists r0. split; [right; exact Hr0|exact Hi]. }
    destruct good; [|exact Hrest].
    destruct (opaque_chain_good _ _ _ _ _ Ec Hne) as (Hp & Hi & Hg).
    constructor; [|exact Hrest].
    split; [exact Hp|]. split; [|exact Hg]. exists r. split; [left; reflexivity|exact Hi].
Qed.

Lemma layer_opaque_spec_witness :
  ([5%nat] <> [] /\
   layer_opaque ex_opaque_state [5%nat] [mkRect 5 5 10 10] = Some [mkRect 5 5 5 5]) /\
  Forall (fun r => positive_area r = true /\
    (exists r0, In r0 [mkRect 5 5 10 10] /\ inside r r0) /\
    forall g, In g [5%nat] -> exists d, store ex_opaque_state !! g = Some d /\
      inside r (g_rect d) /\ exists rk, inside r rk /\ opaque_in d rk = true)
    [mkRect 5 5 5 5].
Proof.
  split; [split; [discriminate|reflexivity]|].
  apply (layer_opaque_spec ex_opaque_state [5%nat] [mkRect 5 5 10 10]);
    [discriminate|reflexivity].
Defined.

(** Fast path (lines 210-216): [fastdraw] returns "no work" only when the
    caller's list was empty and stays empty; then the graphics change only in
    [was_visible], and every graphic of the layers had no dirty rectangle or
    was invisible now and before (its dirty list is left as it is). *)
Theorem fastdraw_no_work_shape layers_in graphics_in st graphics st' :
  mapM (fun l => graphics_in !! l) layers_in = Some graphics ->
  fastdraw layers_in graphics_in st = Some (NoWork, st') ->
  dirty_acc st = [] /\ dirty_acc st' = [] /\
  erase_wv <$> store st' = erase_wv <$> store st /\
  forall g d, In g (concat graphics) -> store st !! g = Some d ->
    dirty d = [] \/ (was_visible d = false /\ visible d = false).
Proof.
  intros Hm H. apply fastdraw_inv in H as (graphics' & st1 & Hm' & Hc & Hpath).
  rewrite Hm in Hm'. injection Hm' as <-.
  destruct Hpath as [(Hd & _ & ->)|(dbl & _ & _ & _ & E)]; [|discriminate].
  destruct (collect_layer_shape _ _ _ Hc) as [Hs (app & Ha)].
  rewrite Hd in Ha. symmetry in Ha. apply app_eq_nil in Ha as [Ha _].
  split; [exact Ha|]. split; [exact Hd|]. split; [exact Hs|].
  exact (collect_layer_quiet _ _ _ Hc Hd).
Qed.

Lemma fastdraw_no_work_shape_witness :
  (mapM (fun l => (<[0%nat := [8%nat]]> ∅ : gmap nat (list nat)) !! l) [0%nat]
     = Some [[8%nat]] /\
   fastdraw [0%nat] (<[0%nat := [8%nat]]> ∅) ex_quiet_state = Some (NoWork, ex_quiet_after)) /\
  (dirty_acc ex_quiet_state = [] /\ dirty_acc ex_quiet_after = [] /\
   erase_wv <$> store ex_quiet_after = erase_wv <$> store ex_quiet_state /\
   forall g d, In g (concat [[8%nat]]) -> store ex_quiet_state !! g = Some d ->
     dirty d = [] \/ (was_visible d = false /\ visible d = false)).
Proof.
  split; [split; reflexivity|].
  apply (fastdraw_no_work_shape [0%nat] (<[0%nat := [8%nat]]> ∅) ex_quiet_state [[8%nat]]
           ex_quiet_after); reflexivity.
Defined.

(** Redraw (lines 267-293): when [fastdraw] redraws, every graphic of the
    layers ends with an empty [dirty] list, and apart from [was_visible] and
    [dirty] no graphic attribute changes. *)
Theorem fastdraw_drawn_clears_dirty layers_in graphics_in st graphics rs st' :
  mapM (fun l => graphics_in !! l) layers_in = Some graphics ->
  fastdraw layers_in graphics_in st = Some (Drawn rs, st') ->
  erase_dw <$> store st' = erase_dw <$> store st /\
  forall g, In g (concat graphics) -> exists d, store st' !! g = Some d /\ dirty d = [].
Proof.
  intros Hm H. apply fastdraw_inv in H as (graphics' & st1 & Hm' & Hc & Hpath).
  rewrite Hm in Hm'. injection Hm' as <-.
  destruct Hpath as [(_ & E & _)|(dbl & _ & Ho & Hd & _)]; [discriminate|].
  destruct (collect_layer_shape _ _ _ Hc) as [Hs1 _]. apply erase_wv_dw in Hs1.
  destruct (draw_layers_shape _ _ _ Hd) as (Hs2 & _ & _ & _ & Hin).
  split; [congruence|]. intros g Hg.
  destruct (zip_concat_In graphics dbl g (occlude_length _ _ _ _ _ Ho) Hg) as (p & Hp & Hgp).
  exact (Hin p g Hp Hgp).
Qed.

Lemma fastdraw_drawn_clears_dirty_witness :
  (mapM (fun l => ex_graphics_in !! l) [0%nat; 1%nat] = Some [[]; [7%nat]] /\
   fastdraw [0%nat; 1%nat] ex_graphics_in ex_state = Some (Drawn [ex_r; ex_r], ex_state_after)) /\
  (erase_dw <$> store ex_state_after = erase_dw <$> store ex_state /\
   forall g, In g (concat [[]; [7%nat]]) ->
     exists d, store ex_state_after !! g = Some d /\ dirty d = []).
Proof.
  split; [split; reflexivity|].
  apply (fastdraw_drawn_clears_dirty [0%nat; 1%nat] ex_graphics_in ex_state [[]; [7%nat]]
           [ex_r; ex_r] ex_state_after); reflexivity.
Defined.

(** Return value (lines 296-302): every rectangle [fastdraw] returns has
    positive width and height. *)
Theorem fastdraw_drawn_positive layers_in graphics_in st rs st' :
  fastdraw layers_in graphics_in st = Some (Drawn rs, st') ->
  Forall (fun r => 0 < rw r /\ 0 < rh r) rs.
Proof.
  intros H. apply fastdraw_inv in H as (graphics & st1 & _ & _ & Hpath).
  destruct Hpath as [(_ & E & _)|(dbl & _ & Ho & _ & E)]; [discriminate|].
  injection E as ->. pose proof (occlude_positive _ _ _ _ _ Ho) as Hp.
  apply List.Forall_forall. intros r Hr. apply in_concat in Hr as (l & Hl & Hr).
  rewrite List.Forall_forall in Hp. specialize (Hp l Hl).
  rewrite List.Forall_forall in Hp. exact (Hp r Hr).
Qed.

Lemma fastdraw_drawn_positive_witness :
  fastdraw [0%nat; 1%nat] ex_graphics_in ex_state = Some (Drawn [ex_r; ex_r], ex_state_after) /\
  Forall (fun r => 0 < rw r /\ 0 < rh r) [ex_r; ex_r].
Proof.
  split; [reflexivity|].
  apply (fastdraw_drawn_positive [0%nat; 1%nat] ex_graphics_in ex_state [ex_r; ex_r]
           ex_state_after); reflexivity.
Defined.

(** Draw calls (lines 272-291): every [draw] call [fastdraw] makes gets a
    non-empty list of positive-area rectangles, each inside the graphic's
    [_rect]; the call only appends to the event history. *)
Theorem fastdraw_draw_calls layers_in graphics_in st res st' :
  fastdraw layers_in graphics_in st = Some (res, st') ->
  exists new, log st' = log st ++ new /\ Forall (good_draw (store st)) new.
Proof.
  intros H. apply fastdraw_inv in H as (graphics & st1 & _ & Hc & Hpath).
  destruct (collect_layer_log _ _ _ Hc) as (n1 & Hl1 & _ & Hf1).
  assert (Hg1 : Forall (good_draw (store st)) n1).
  { eapply List.Forall_impl; [|exact Hf1]. intros e (g & b & ->). exact I. }
  destruct Hpath as [(_ & _ & ->)|(dbl & _ & _ & Hd & _)]; [exists n1; tauto|].
  destruct (collect_layer_shape _ _ _ Hc) as [Hs1 _]. apply erase_wv_dw in Hs1.
  destruct (draw_layers_shape _ _ _ Hd) as (_ & _ & (n2 & Hl2 & Hg2) & _).
  exists (n1 ++ n2). split; [rewrite Hl2, Hl1, app_assoc; reflexivity|].
  apply Forall_app. split; [exact Hg1|].
  eapply List.Forall_impl; [|exact Hg2]. intros e. apply good_draw_erase. exact Hs1.
Qed.

Lemma fastdraw_draw_calls_witness :
  fastdraw [0%nat; 1%nat] ex_graphics_in ex_state = Some (Drawn [ex_r; ex_r], ex_state_after) /\
  exists new, log ex_state_after = log ex_state ++ new /\
    Forall (good_draw (store ex_state)) new.
Proof.
  split; [reflexivity|].
  apply (fastdraw_draw_calls [0%nat; 1%nat] ex_graphics_in ex_state (Drawn [ex_r; ex_r])
           ex_state_after); reflexivity.
Defined.

(** Collection (lines 179-208): [fastdraw] only appends to the caller's
    [dirty] list, and each appended rectangle is a dirty rectangle of a
    graphic of the layers clipped to its [last_rect] or to its [_rect]. *)
Theorem fastdraw_dirty_appended layers_in graphics_in st graphics res st' :
  mapM (fun l => graphics_in !! l) layers_in = Some graphics ->
  fastdraw layers_in graphics_in st = Some (res, st') ->
  exists app, dirty_acc st' = dirty_acc st ++ app /\
    Forall (fun r => exists g d r0, In g (concat graphics) /\ store st !! g = Some d /\
              In r0 (dirty d) /\ (r = clip r0 (last_rect d) \/ r = clip r0 (g_rect d))) app.
Proof.
  intros Hm H. apply fastdraw_inv in H as (graphics' & st1 & Hm' & Hc & Hpath).
  rewrite Hm in Hm'. injection Hm' as <-.
  destruct (collect_layer_items _ _ _ Hc) as (app & Ha & Hf).
  exists app. split; [|exact Hf].
  destruct Hpath as [(_ & _ & ->)|(dbl & _ & _ & Hd & _)]; [exact Ha|].
  destruct (draw_layers_shape _ _ _ Hd) as (_ & Ha2 & _). congruence.
Qed.

Lemma fastdraw_dirty_appended_witness :
  (mapM (fun l => ex_graphics_in !! l) [0%nat; 1%nat] = Some [[]; [7%nat]] /\
   fastdraw [0%nat; 1%nat] ex_graphics_in ex_state = Some (Drawn [ex_r; ex_r], ex_state_after)) /\
  exists app, dirty_acc ex_state_after = dirty_acc ex_state ++ app /\
    Forall (fun r => exists g d r0, In g (concat [[]; [7%nat]]) /\
              store ex_state !! g = Some d /\ In r0 (dirty d) /\
              (r = clip r0 (last_rect d) \/ r = clip r0 (g_rect d))) app.
Proof.
  split; [split; reflexivity|].
  apply (fastdraw_dirty_appended [0%nat; 1%nat] ex_graphics_in ex_state [[]; [7%nat]]
           (Drawn [ex_r; ex_r]) ex_state_after); reflexivity.
Defined.

(** ** The C quicksort against its model *)

Import QuickSortC.

(** ** The in-place quicksort *)

Definition ix (a : list Z) (k : Z) : Z := nth (Z.to_nat k) a 0.

Lemma rd_Some a k v : rd a k = Some v -> 0 <= k < Z.of_nat (length a) /\ v = ix a k.
Proof.
  unfold rd, ix. destruct (Z.leb_spec 0 k); [|discriminate]. intros Hr.
  pose proof (lookup_lt_Some _ _ _ Hr). split; [lia|].
  symmetry. apply nth_lookup_Some. exact Hr.
Qed.

Lemma ix_insert a k v q :
  0 <= k < Z.of_nat (length a) -> 0 <= q ->
  ix (<[Z.to_nat k := v]> a) q = if Z.eq_dec q k then v else ix a q.
Proof.
  intros Hk Hq. unfold ix. rewrite !nth_lookup. destruct (Z.eq_dec q k) as [->|Hne].
  - rewrite list_lookup_insert_eq by lia. reflexivity.
  - rewrite list_lookup_insert_ne by lia. reflexivity.
Qed.

Lemma wr_Some a k v a' :
  wr a k v = Some a' ->
  0 <= k < Z.of_nat (length a) /\ a' = <[Z.to_nat k := v]> a /\ length a' = length a /\
  forall q, 0 <= q -> ix a' q = if Z.eq_dec q k then v else ix a q.
Proof.
  unfold wr. destruct (Z.leb_spec 0 k), (Z.ltb_spec k (Z.of_nat (length a)));
    simpl; try discriminate.
  intros [= <-]. split; [lia|]. split; [reflexivity|]. split; [apply length_insert|].
  intros q Hq. apply ix_insert; lia.
Qed.

Lemma dec_R_spec f a piv L R R' :
  dec_R f a piv L R = Some R' -> L <= R ->
  L <= R' <= R /\ (forall q, R' < q <= R -> piv <= ix a q) /\ (L < R' -> ix a R' < piv).
Proof.
  revert R. induction f as [|f IH]; intros R H HLR; simpl in H; [discriminate|].
  destruct (rd a R) as [v|] eqn:Ev; simpl in H; [|discriminate].
  apply rd_Some in Ev as [_ ->].
  destruct (Z.leb_spec piv (ix a R)), (Z.ltb_spec L R); simpl in H.
  - destruct (IH _ H ltac:(lia)) as (I1 & I2 & I3).
    split; [lia|]. split; [|exact I3].
    intros q Hq. destruct (Z.eq_dec q R) as [->|]; [assumption|]. apply I2. lia.
  - injection H as <-. split; [lia|]. split; [intros; lia|]. intros; lia.
  - injection H as <-. split; [lia|]. split; [intros; lia|]. intros; lia.
  - injection H as <-. split; [lia|]. split; [intros; lia|]. intros; lia.
Qed.

Lemma inc_L_spec f a piv L R L' :
  inc_L f a piv L R = Some L' -> L <= R ->
  L <= L' <= R /\ (forall q, L <= q < L' -> ix a q <= piv) /\ (L' < R -> piv < ix a L').
Proof.
  revert L. induction f as [|f IH]; intros L H HLR; simpl in H; [discriminate|].
  destruct (rd a L) as [v|] eqn:Ev; simpl in H; [|discriminate].
  apply rd_Some in Ev as [_ ->].
  destruct (Z.leb_spec (ix a L) piv), (Z.ltb_spec L R); simpl in H.
  - destruct (IH _ H ltac:(lia)) as (I1 & I2 & I3).
    split; [lia|]. split; [|exact I3].
    intros q Hq. destruct (Z.eq_dec q L) as [->|]; [assumption|]. apply I2. lia.
  - injection H as <-. split; [lia|]. split; [intros; lia|]. intros; lia.
  - injection H as <-. split; [lia|]. split; [intros; lia|]. intros; lia.
  - injection H as <-. split; [lia|]. split; [intros; lia|]. intros; lia.
Qed.

Lemma rd_in a k : 0 <= k < Z.of_nat (length a) -> rd a k = Some (ix a k).
Proof.
  intros Hk. unfold rd, ix. destruct (Z.leb_spec 0 k); [|lia].
  destruct (nth_lookup_or_length a (Z.to_nat k) 0) as [E|E]; [exact E|lia].
Qed.

Lemma wr_in a k v : 0 <= k < Z.of_nat (length a) -> wr a k v = Some (<[Z.to_nat k := v]> a).
Proof.
  intros Hk. unfold wr. destruct (Z.leb_spec 0 k), (Z.ltb_spec k (Z.of_nat (length a)));
    [reflexivity|lia..].
Qed.

Lemma dec_R_total g a piv L R :
  0 <= L <= R -> R < Z.of_nat (length a) -> R - L + 1 <= Z.of_nat g ->
  is_Some (dec_R g a piv L R).
Proof.
  revert R. induction g as [|g IH]; intros R HLR Ha Hg; [lia|]. simpl.
  rewrite rd_in by lia. simpl.
  destruct (Z.leb_spec piv (ix a R)), (Z.ltb_spec L R); simpl; try (eexists; reflexivity).
  apply IH; lia.
Qed.

Lemma inc_L_total g a piv L R :
  0 <= L <= R -> R < Z.of_nat (length a) -> R - L + 1 <= Z.of_nat g ->
  is_Some (inc_L g a piv L R).
Proof.
  revert L. induction g as [|g IH]; intros L HLR Ha Hg; [lia|]. simpl.
  rewrite rd_in by lia. simpl.
  destruct (Z.leb_spec (ix a L) piv), (Z.ltb_spec L R); simpl; try (eexists; reflexivity).
  apply IH; lia.
Qed.

(** The partition of [arr[b..e-1]] around [piv = arr[b]]: the array with
    [piv] put back into the hole [h] is a rearrangement of the segment. *)
Section Partition.

Variables (a0 : list Z) (b e : Z).
Hypotheses (Hb : 0 <= b) (Hbe : b < e) (He : e <= Z.of_nat (length a0)).

Let piv := ix a0 b.

Definition fill (a : list Z) (h : Z) : list Z := <[Z.to_nat h := piv]> a.

Definition part_inv (a : list Z) (h L R : Z) : Prop :=
  b <= L <= R /\ R <= e - 1 /\ b <= h <= e - 1 /\ length a = length a0 /\
  (forall q, 0 <= q -> q < b \/ e <= q -> ix a q = ix a0 q) /\
  fill a h ≡ₚ a0 /\
  (forall q, b <= q < e -> exists o, b <= o < e /\ ix (fill a h) q = ix a0 o) /\
  (forall q, b <= q < L -> ix a q <= piv) /\
  (forall q, R < q <= e - 1 -> piv <= ix a q).

Lemma ix_fill a h q :
  0 <= h < Z.of_nat (length a) -> 0 <= q ->
  ix (fill a h) q = if Z.eq_dec q h then piv else ix a q.
Proof. apply ix_insert. Qed.

(** Moving the hole from [h] to [h']: [arr[h] = arr[h']]. *)
Lemma move_hole a h h' a' :
  b <= h <= e - 1 -> b <= h' <= e - 1 -> length a = length a0 ->
  wr a h (ix a h') = Some a' ->
  fill a h ≡ₚ a0 ->
  (forall q, b <= q < e -> exists o, b <= o < e /\ ix (fill a h) q = ix a0 o) ->
  length a' = length a0 /\
  (forall q, 0 <= q -> q < b \/ e <= q -> ix a' q = ix a q) /\
  fill a' h' ≡ₚ a0 /\
  (forall q, b <= q < e -> exists o, b <= o < e /\ ix (fill a' h') q = ix a0 o).
Proof.
  intros Hh Hh' Hl Hw Hp Ho.
  destruct (wr_Some _ _ _ _ Hw) as (Hk & -> & Hl' & Hix).
  split; [congruence|]. split.
  { intros q Hq Hout. rewrite Hix by lia. destruct (Z.eq_dec q h); [lia|reflexivity]. }
  split.
  - rewrite <- Hp. unfold fill.
    destruct (Z.eq_dec h h') as [<-|Hne].
    { rewrite list_insert_insert_eq. reflexivity. }
    rewrite <- (list_insert_insert_eq a (Z.to_nat h) (ix a h') piv).
    apply Permutation_insert_swap.
    + apply list_lookup_insert_eq. lia.
    + rewrite list_lookup_insert_ne by lia. unfold ix.
      destruct (nth_lookup_or_length a (Z.to_nat h') 0) as [E|E]; [exact E|lia].
  - intros q Hq.
    assert (Hq' : b <= (if Z.eq_dec q h' then h else if Z.eq_dec q h then h' else q) < e)
      by (destruct (Z.eq_dec q h'), (Z.eq_dec q h); lia).
    destruct (Ho _ Hq') as (o & Ho1 & Ho2). exists o. split; [exact Ho1|].
    rewrite <- Ho2. rewrite !ix_fill by (rewrite ?length_insert; lia).
    rewrite ix_insert by lia.
    destruct (Z.eq_dec q h'), (Z.eq_dec q h); subst;
      repeat (destruct (Z.eq_dec _ _); try lia); reflexivity.
Qed.


Lemma part_half1 f a L R R1 a1 L1 :
  part_inv a L L R -> L < R -> dec_R f a piv L R = Some R1 ->
  (if L <? R1 then v ← rd a R1; a1 ← wr a L v; Some (a1, L + 1) else Some (a, L))
    = Some (a1, L1) ->
  part_inv a1 R1 L1 R1.
Proof.
  intros (HbL & HR & Hh & Hl & Hout & Hp & Ho & Hlo & Hup) HLR E1 H.
  destruct (dec_R_spec _ _ _ _ _ _ E1 ltac:(lia)) as (HR1 & Hge & Hlt).
  destruct (Z.ltb_spec L R1) as [HL|HL].
  - destruct (rd a R1) as [v|] eqn:Ev; simpl in H; [|discriminate].
    apply rd_Some in Ev as [_ ->].
    destruct (wr a L (ix a R1)) as [a1'|] eqn:Ew; simpl in H; [|discriminate].
    injection H as <- <-.
    destruct (move_hole a L R1 a1' ltac:(lia) ltac:(lia) Hl Ew Hp Ho)
      as (Hl' & Hout' & Hp' & Ho').
    destruct (wr_Some _ _ _ _ Ew) as (_ & _ & _ & Hix).
    split; [lia|]. split; [lia|]. split; [lia|]. split; [exact Hl'|].
    split; [intros q Hq Hq'; rewrite Hout' by assumption; apply Hout; assumption|].
    split; [exact Hp'|]. split; [exact Ho'|]. split.
    + intros q Hq. rewrite Hix by lia. destruct (Z.eq_dec q L) as [->|]; [|apply Hlo]; lia.
    + intros q Hq. rewrite Hix by lia. destruct (Z.eq_dec q L) as [->|]; [lia|].
      destruct (Z.le_gt_cases q R); [apply Hge|apply Hup]; lia.
  - injection H as <- <-. assert (R1 = L) as -> by lia.
    split; [lia|]. split; [lia|]. split; [lia|]. split; [exact Hl|].
    split; [exact Hout|]. split; [exact Hp|]. split; [exact Ho|]. split; [exact Hlo|].
    intros q Hq. destruct (Z.le_gt_cases q R); [apply Hge|apply Hup]; lia.
Qed.

Lemma part_half2 f a1 L1 R1 L2 a2 R2 :
  part_inv a1 R1 L1 R1 -> inc_L f a1 piv L1 R1 = Some L2 ->
  (if L2 <? R1 then v ← rd a1 L2; a2 ← wr a1 R1 v; Some (a2, R1 - 1) else Some (a1, R1))
    = Some (a2, R2) ->
  part_inv a2 L2 L2 R2.
Proof.
  intros (HbL & HR & Hh & Hl & Hout & Hp & Ho & Hlo & Hup) E2 H.
  destruct (inc_L_spec _ _ _ _ _ _ E2 ltac:(lia)) as (HL2 & Hle & Hgt).
  destruct (Z.ltb_spec L2 R1) as [HL|HL].
  - destruct (rd a1 L2) as [v|] eqn:Ev; simpl in H; [|discriminate].
    apply rd_Some in Ev as [_ ->].
    destruct (wr a1 R1 (ix a1 L2)) as [a2'|] eqn:Ew; simpl in H; [|discriminate].
    injection H as <- <-.
    destruct (move_hole a1 R1 L2 a2' ltac:(lia) ltac:(lia) Hl Ew Hp Ho)
      as (Hl' & Hout' & Hp' & Ho').
    destruct (wr_Some _ _ _ _ Ew) as (_ & _ & _ & Hix).
    split; [lia|]. split; [lia|]. split; [lia|]. split; [exact Hl'|].
    split; [intros q Hq Hq'; rewrite Hout' by assumption; apply Hout; assumption|].
    split; [exact Hp'|]. split; [exact Ho'|]. split.
    + intros q Hq. rewrite Hix by lia. destruct (Z.eq_dec q R1) as [->|]; [lia|].
      destruct (Z.lt_ge_cases q L1); [apply Hlo|apply Hle]; lia.
    + intros q Hq. rewrite Hix by lia. destruct (Z.eq_dec q R1) as [->|]; [lia|].
      apply Hup. lia.
  - injection H as <- <-. assert (L2 = R1) as -> by lia.
    split; [lia|]. split; [lia|]. split; [lia|]. split; [exact Hl|].
    split; [exact Hout|]. split; [exact Hp|]. split; [exact Ho|]. split; [|exact Hup].
    intros q Hq. destruct (Z.lt_ge_cases q L1); [apply Hlo|apply Hle]; lia.
Qed.

Lemma partition_spec f a L R a' L' R' :
  part_inv a L L R -> partition f a piv L R = Some (a', L', R') ->
  part_inv a' L' L' R' /\ L' = R'.
Proof.
  revert a L R. induction f as [|f IH]; intros a L R Hinv H; simpl in H; [discriminate|].
  destruct (Z.ltb_spec L R) as [HLR|HLR].
  - destruct (dec_R f a piv L R) as [R1|] eqn:E1; simpl in H; [|discriminate].
    destruct (if L <? R1 then v ← rd a R1; a1 ← wr a L v; Some (a1, L + 1)
              else Some (a, L)) as [[a1 L1]|] eqn:EX; simpl in H; [|discriminate].
    pose proof (part_half1 _ _ _ _ _ _ _ Hinv HLR E1 EX) as Hmid.
    destruct (inc_L f a1 piv L1 R1) as [L2|] eqn:E2; simpl in H; [|discriminate].
    destruct (if L2 <? R1 then v ← rd a1 L2; a2 ← wr a1 R1 v; Some (a2, R1 - 1)
              else Some (a1, R1)) as [[a2 R2]|] eqn:EY; simpl in H; [|discriminate].
    exact (IH _ _ _ (part_half2 _ _ _ _ _ _ _ Hmid E2 EY) H).
  - injection H as <- <- <-. split; [exact Hinv|]. destruct Hinv as ((? & ?) & _). lia.
Qed.

(** The partition step of lines 15-22 on the segment [arr[b..e-1]]. *)
(** At the start of the partition loop the hole is at [b], where the pivot
    was read. *)
Lemma part_inv_init : part_inv a0 b b (e - 1).
Proof.
  split; [lia|]. split; [lia|]. split; [lia|]. split; [reflexivity|].
  split; [reflexivity|].
  assert (Hf : fill a0 b = a0).
  { unfold fill, piv, ix. apply list_insert_id.
    destruct (nth_lookup_or_length a0 (Z.to_nat b) 0) as [E|E]; [exact E|lia]. }
  rewrite Hf. split; [reflexivity|].
  split; [intros q Hq; exists q; split; [exact Hq|reflexivity]|].
  split; intros q Hq; lia.
Qed.

Lemma partition_result f a' L' R' a2 :
  partition f a0 piv b (e - 1) = Some (a', L', R') -> wr a' L' piv = Some a2 ->
  b <= L' <= e - 1 /\ length a2 = length a0 /\ a2 ≡ₚ a0 /\
  (forall q, 0 <= q -> q < b \/ e <= q -> ix a2 q = ix a0 q) /\
  (forall q, b <= q < e -> exists o, b <= o < e /\ ix a2 q = ix a0 o) /\
  (forall q, b <= q < L' -> ix a2 q <= piv) /\ ix a2 L' = piv /\
  (forall q, L' < q <= e - 1 -> piv <= ix a2 q).
Proof.
  intros Hp Hw.
  destruct (partition_spec _ _ _ _ _ _ _ part_inv_init Hp)
    as ((HbL & HR & Hh & Hl & Hout & Hperm & Ho & Hlo & Hup) & <-).
  destruct (wr_Some _ _ _ _ Hw) as (Hk & Ha2 & Hl2 & Hix).
  assert (Hfill : a2 = fill a' L') by exact Ha2.
  split; [lia|]. split; [congruence|]. split; [rewrite Hfill; exact Hperm|].
  split.
  { intros q Hq Hq'. rewrite Hix by lia. destruct (Z.eq_dec q L'); [lia|]. apply Hout; assumption. }
  split; [rewrite Hfill; exact Ho|].
  split; [intros q Hq; rewrite Hix by lia; destruct (Z.eq_dec q L'); [lia|]; apply Hlo; lia|].
  split; [rewrite Hix by lia; destruct (Z.eq_dec L' L'); [reflexivity|lia]|].
  intros q Hq. rewrite Hix by lia. destruct (Z.eq_dec q L'); [lia|]. apply Hup. lia.
Qed.

(** With enough iterations the partition loop finishes, every access in
    range. *)
Lemma partition_total g a L R :
  part_inv a L L R -> R - L + 2 <= Z.of_nat g -> is_Some (partition g a piv L R).
Proof.
  revert a L R. induction g as [|g IH]; intros a L R Hinv Hg;
    [destruct Hinv as ((? & ?) & _); lia|].
  simpl. destruct (Z.ltb_spec L R) as [HLR|HLR]; [|eexists; reflexivity].
  pose proof Hinv as (HbL & HR & Hh & Hl & _).
  destruct (dec_R_total g a piv L R ltac:(lia) ltac:(lia) ltac:(lia)) as [R1 E1].
  rewrite E1. simpl.
  destruct (dec_R_spec _ _ _ _ _ _ E1 ltac:(lia)) as (HR1 & _).
  assert (HX : exists a1 L1,
    (if L <? R1 then v ← rd a R1; a1 ← wr a L v; Some (a1, L + 1) else Some (a, L))
      = Some (a1, L1) /\ (L < R1 -> L1 = L + 1) /\ (R1 <= L -> L1 = L)).
  { destruct (Z.ltb_spec L R1).
    - rewrite rd_in by lia. simpl. rewrite wr_in by lia. simpl.
      eexists _, _. split; [reflexivity|]. split; [reflexivity|lia].
    - eexists _, _. split; [reflexivity|]. split; [lia|reflexivity]. }
  destruct HX as (a1 & L1 & EX & HL1 & HL1'). rewrite EX. simpl.
  pose proof (part_half1 _ _ _ _ _ _ _ Hinv HLR E1 EX) as Hmid.
  pose proof Hmid as (HbL1 & HR1' & _ & Hl1 & _).
  destruct (inc_L_total g a1 piv L1 R1 ltac:(lia) ltac:(lia) ltac:(lia)) as [L2 E2].
  rewrite E2. simpl.
  destruct (inc_L_spec _ _ _ _ _ _ E2 ltac:(lia)) as (HL2 & _).
  assert (HY : exists a2 R2,
    (if L2 <? R1 then v ← rd a1 L2; a2 ← wr a1 R1 v; Some (a2, R1 - 1)
     else Some (a1, R1)) = Some (a2, R2) /\ R2 <= R1).
  { destruct (Z.ltb_spec L2 R1).
    - rewrite rd_in by lia. simpl. rewrite wr_in by lia. simpl.
      eexists _, _. split; [reflexivity|lia].
    - eexists _, _. split; [reflexivity|lia]. }
  destruct HY as (a2 & R2 & EY & HR2). rewrite EY. simpl.
  pose proof (part_half2 _ _ _ _ _ _ _ Hmid E2 EY) as Hinv2.
  apply IH; [exact Hinv2|].
  destruct Hinv2 as ((? & ?) & _).
  destruct (Z.lt_ge_cases L R1); [specialize (HL1 ltac:(lia))|specialize (HL1' ltac:(lia))]; lia.
Qed.

(** With [e - b + 1] iterations the partition of the segment finishes and
    the pivot can be written back. *)
Lemma partition_run_total f :
  e - b + 1 <= Z.of_nat f ->
  exists a' L' R' a2, partition f a0 piv b (e - 1) = Some (a', L', R') /\
    wr a' L' piv = Some a2.
Proof.
  intros Hf.
  destruct (partition_total f a0 b (e - 1) part_inv_init ltac:(lia)) as [[[a' L'] R'] EP].
  destruct (partition_spec _ _ _ _ _ _ _ part_inv_init EP) as ((HbL & HR & _ & Hl & _) & <-).
  exists a', L', L', (<[Z.to_nat L' := piv]> a'). split; [exact EP|].
  apply wr_in. lia.
Qed.
End Partition.

(** ** The stack loop *)
Section Stack.

Variable arr0 : list Z.
Let N := Z.of_nat (length arr0).

(** Every entry left of the cut [c] is at most every entry right of it. *)
Definition valid_cut (a : list Z) (c : Z) : Prop :=
  forall q q', 0 <= q < c -> c <= q' < N -> ix a q <= ix a q'.

(** The pending segments [beg[k]..end[k]-1] for [k <= i] lie in the array and
    are pairwise disjoint; every cut not strictly inside one of them is
    valid. *)
Definition qs_inv (arr beg en : list Z) (i : Z) : Prop :=
  length arr = length arr0 /\ arr ≡ₚ arr0 /\
  (forall k, 0 <= k <= i -> 0 <= ix beg k <= ix en k /\ ix en k <= N) /\
  (forall k k', 0 <= k <= i -> 0 <= k' <= i -> k <> k' ->
     ix en k <= ix beg k' \/ ix en k' <= ix beg k) /\
  (forall c, 0 <= c <= N -> (forall k, 0 <= k <= i -> ~ (ix beg k < c < ix en k)) ->
     valid_cut arr c).

Lemma qs_inv_pop arr beg en i :
  qs_inv arr beg en i -> 0 <= i -> ix en i - 1 <= ix beg i -> qs_inv arr beg en (i - 1).
Proof.
  intros (Hl & Hp & H3 & H4 & H5) Hi Hs.
  split; [exact Hl|]. split; [exact Hp|].
  split; [intros k Hk; apply H3; lia|]. split; [intros k k' Hk Hk'; apply H4; lia|].
  intros c Hc Hn. apply H5; [exact Hc|]. intros k Hk.
  destruct (Z.eq_dec k i) as [->|]; [lia|]. apply Hn. lia.
Qed.

(** The two halves of a partitioned segment replace it on the stack, in
    either order. *)
Lemma qs_inv_split arr beg en i arr2 beg' en' L' :
  qs_inv arr beg en i -> 0 <= i ->
  let b := ix beg i in let e := ix en i in
  b <= L' <= e - 1 -> length arr2 = length arr -> arr2 ≡ₚ arr ->
  (forall q, 0 <= q -> q < b \/ e <= q -> ix arr2 q = ix arr q) ->
  (forall q, b <= q < e -> exists o, b <= o < e /\ ix arr2 q = ix arr o) ->
  (forall q, b <= q <= L' -> ix arr2 q <= ix arr2 L') ->
  (forall q, L' <= q <= e - 1 -> ix arr2 L' <= ix arr2 q) ->
  (forall k, 0 <= k < i -> ix beg' k = ix beg k /\ ix en' k = ix en k) ->
  ((ix beg' i = b /\ ix en' i = L' /\ ix beg' (i + 1) = L' + 1 /\ ix en' (i + 1) = e) \/
   (ix beg' i = L' + 1 /\ ix en' i = e /\ ix beg' (i + 1) = b /\ ix en' (i + 1) = L')) ->
  qs_inv arr2 beg' en' (i + 1).
Proof.
  intros (Hl & Hp & H3 & H4 & H5) Hi b e HL' Hl2 Hp2 Hout Ho Hlo Hup Hold Hnew.
  assert (Hbe : 0 <= b <= e /\ e <= N) by (apply H3; lia).
  (* the old segment [b, e) is disjoint from the others *)
  assert (Hdis : forall k, 0 <= k < i -> ix en k <= b \/ e <= ix beg k).
  { intros k Hk. destruct (H4 k i ltac:(lia) ltac:(lia) ltac:(lia)); [left|right]; assumption. }
  (* a cut outside (b, e) keeps its validity *)
  assert (Hcut : forall c, 0 <= c <= N -> ~ (b < c < e) ->
            (forall k, 0 <= k < i -> ~ (ix beg k < c < ix en k)) -> valid_cut arr2 c).
  { intros c Hc Hnb Hnk q q' Hq Hq'.
    assert (Hv : valid_cut arr c).
    { apply H5; [exact Hc|]. intros k Hk. destruct (Z.eq_dec k i) as [->|]; [exact Hnb|].
      apply Hnk. lia. }
    destruct (Z.lt_ge_cases q b) as [Hqb|Hqb];
      [|destruct (Z.lt_ge_cases q e) as [Hqe|Hqe]].
    all: destruct (Z.lt_ge_cases q' b) as [Hqb'|Hqb'];
      [|destruct (Z.lt_ge_cases q' e) as [Hqe'|Hqe']].
    all: try (rewrite (Hout q) by lia); try (rewrite (Hout q') by lia).
    all: try (destruct (Ho q ltac:(lia)) as (o & Ho1 & ->)).
    all: try (destruct (Ho q' ltac:(lia)) as (o' & Ho1' & ->)).
    all: apply Hv; lia. }
  (* the cuts at b and e were valid *)
  assert (Hvb : valid_cut arr b).
  { apply H5; [lia|]. intros k Hk. destruct (Z.eq_dec k i) as [->|]; [lia|].
    destruct (Hdis k ltac:(lia)); lia. }
  assert (Hve : valid_cut arr e).
  { apply H5; [lia|]. intros k Hk. destruct (Z.eq_dec k i) as [->|]; [lia|].
    destruct (Hdis k ltac:(lia)); [lia|].
    pose proof (H3 k ltac:(lia)). lia. }
  split; [congruence|]. split; [rewrite Hp2; exact Hp|].
  assert (Hseg : forall k, 0 <= k <= i + 1 ->
     (k < i /\ ix beg' k = ix beg k /\ ix en' k = ix en k) \/
     ((k = i \/ k = i + 1) /\ b <= ix beg' k /\ ix en' k <= e /\
      ((ix beg' k = b /\ ix en' k = L') \/ (ix beg' k = L' + 1 /\ ix en' k = e)))).
  { intros k Hk. destruct (Z.lt_ge_cases k i) as [Hki|Hki].
    - left. split; [exact Hki|]. apply Hold. lia.
    - right. destruct Hnew as [(E1 & E2 & E3 & E4)|(E1 & E2 & E3 & E4)];
        (assert (k = i \/ k = i + 1) as [->| ->] by lia); split; try lia;
        rewrite ?E1, ?E2, ?E3, ?E4; split; try lia; split; try lia; tauto. }
  split.
  { intros k Hk. destruct (Hseg k Hk) as [(Hki & -> & ->)|(_ & _ & _ & [(-> & ->)|(-> & ->)])].
    - apply H3. lia.
    - lia.
    - lia. }
  split.
  { intros k k' Hk Hk' Hne.
    destruct (Hseg k Hk) as [(Hki & Eb & Ee)|(Hki & Hb1 & He1 & Hs1)];
    destruct (Hseg k' Hk') as [(Hki' & Eb' & Ee')|(Hki' & Hb1' & He1' & Hs1')].
    - rewrite Eb, Ee, Eb', Ee'. apply H4; lia.
    - rewrite Eb, Ee. destruct (Hdis k ltac:(lia)); [left|right]; lia.
    - rewrite Eb', Ee'. destruct (Hdis k' ltac:(lia)); [right|left]; lia.
    - assert (Hkk : (k = i /\ k' = i + 1) \/ (k = i + 1 /\ k' = i)) by lia.
      destruct Hnew as [(E1 & E2 & E3 & E4)|(E1 & E2 & E3 & E4)];
        destruct Hkk as [(-> & ->)|(-> & ->)]; lia. }
  intros c Hc Hn.
  assert (Hnk : forall k, 0 <= k < i -> ~ (ix beg k < c < ix en k)).
  { intros k Hk. destruct (Hold k Hk) as [<- <-]. apply Hn. lia. }
  destruct (Z.le_gt_cases c b) as [Hcb|Hcb]; [apply Hcut; [exact Hc|lia|exact Hnk]|].
  destruct (Z.le_gt_cases e c) as [Hce|Hce]; [apply Hcut; [exact Hc|lia|exact Hnk]|].
  (* c inside (b, e): it is L' or L' + 1 *)
  assert (HcL : L' <= c <= L' + 1).
  { pose proof (Hn i ltac:(lia)) as Hni. pose proof (Hn (i + 1) ltac:(lia)) as Hni1.
    destruct Hnew as [(E1 & E2 & E3 & E4)|(E1 & E2 & E3 & E4)];
      rewrite ?E1, ?E2, ?E3, ?E4 in Hni, Hni1; lia. }
  intros q q' Hq Hq'.
  destruct (Z.lt_ge_cases q b) as [Hqb|Hqb].
  - rewrite (Hout q) by lia.
    destruct (Z.lt_ge_cases q' e) as [Hqe'|Hqe'].
    + destruct (Ho q' ltac:(lia)) as (o' & Ho1' & ->). apply Hvb; lia.
    + rewrite (Hout q') by lia. apply Hvb; lia.
  - assert (Hq2 : ix arr2 q <= ix arr2 L') by (apply Hlo; lia).
    destruct (Z.lt_ge_cases q' e) as [Hqe'|Hqe'].
    + destruct (Z.eq_dec q' L') as [->|Hne]; [exact Hq2|].
      pose proof (Hup q' ltac:(lia)). lia.
    + rewrite (Hout q') by lia. destruct (Ho q ltac:(lia)) as (o & Ho1 & ->).
      apply Hve; lia.
Qed.


Ltac ix_simpl :=
  repeat match goal with
         | H : forall q, 0 <= q -> ix ?a q = _ |- context [ix ?a ?k] =>
             rewrite (H k) by lia
         end;
  repeat (destruct (Z.eq_dec _ _); try lia).

Lemma qs_loop_spec fuel arr beg en i res :
  qs_inv arr beg en i -> qs_loop fuel arr beg en i = Some res ->
  res ≡ₚ arr0 /\ forall c, 0 <= c <= N -> valid_cut res c.
Proof.
  revert arr beg en i. induction fuel as [|f IH]; intros arr beg en i Hinv H;
    simpl in H; [discriminate|].
  destruct (Z.leb_spec 0 i) as [Hi|Hi]; simpl in H.
  2:{ injection H as <-. destruct Hinv as (_ & Hp & _ & _ & H5). split; [exact Hp|].
      intros c Hc. apply H5; [exact Hc|]. intros k Hk. lia. }
  destruct (rd beg i) as [L|] eqn:EL; simpl in H; [|discriminate].
  destruct (rd en i) as [e|] eqn:Ee; simpl in H; [|discriminate].
  apply rd_Some in EL as [_ ->]. apply rd_Some in Ee as [_ ->].
  destruct (Z.ltb_spec (ix beg i) (ix en i - 1)) as [Hs|Hs]; simpl in H.
  2:{ exact (IH _ _ _ _ (qs_inv_pop _ _ _ _ Hinv Hi Hs) H). }
  destruct (rd arr (ix beg i)) as [piv|] eqn:Ep; simpl in H; [|discriminate].
  apply rd_Some in Ep as [_ ->].
  destruct (partition f arr (ix arr (ix beg i)) (ix beg i) (ix en i - 1))
    as [[[a' L'] R']|] eqn:EP; simpl in H; [|discriminate].
  destruct (wr a' L' (ix arr (ix beg i))) as [arr2|] eqn:Ew; simpl in H; [|discriminate].
  pose proof Hinv as (Hl & _ & H3 & _).
  destruct (H3 i ltac:(lia)) as [Hbe HeN].
  destruct (partition_result arr (ix beg i) (ix en i) ltac:(lia) ltac:(lia) ltac:(lia)
              f a' L' R' arr2 EP Ew)
    as (HL' & Hl2 & Hp2 & Hout & Ho & Hlo & Hpiv & Hup).
  destruct (wr beg (i + 1) (L' + 1)) as [beg1|] eqn:Eb1; simpl in H; [|discriminate].
  destruct (wr en (i + 1) (ix en i)) as [en1|] eqn:Ee1; simpl in H; [|discriminate].
  destruct (wr en1 i L') as [en2|] eqn:Ee2; simpl in H; [|discriminate].
  destruct (wr_Some _ _ _ _ Eb1) as (_ & _ & _ & Xb1).
  destruct (wr_Some _ _ _ _ Ee1) as (_ & _ & _ & Xe1).
  destruct (wr_Some _ _ _ _ Ee2) as (_ & _ & _ & Xe2).
  assert (Hsplit : forall beg' en',
    (forall k, 0 <= k < i -> ix beg' k = ix beg k /\ ix en' k = ix en k) ->
    ((ix beg' i = ix beg i /\ ix en' i = L' /\ ix beg' (i + 1) = L' + 1 /\
      ix en' (i + 1) = ix en i) \/
     (ix beg' i = L' + 1 /\ ix en' i = ix en i /\ ix beg' (i + 1) = ix beg i /\
      ix en' (i + 1) = L')) ->
    qs_inv arr2 beg' en' (i + 1)).
  { intros beg' en' Hold Hnew.
    apply (qs_inv_split arr beg en i arr2 beg' en' L' Hinv Hi HL' Hl2 Hp2 Hout Ho);
      [| |exact Hold|exact Hnew].
    - intros q Hq. rewrite Hpiv. destruct (Z.eq_dec q L') as [->|]; [lia|]. apply Hlo; lia.
    - intros q Hq. rewrite Hpiv. destruct (Z.eq_dec q L') as [->|]; [lia|]. apply Hup; lia. }
  replace (i + 1 - 1) with i in H by lia.
  destruct (rd beg1 (i + 1)) as [bi|] eqn:R1; simpl in H; [|discriminate].
  apply rd_Some in R1 as [_ ->].
  destruct (rd en2 (i + 1)) as [ei|] eqn:R2; simpl in H; [|discriminate].
  apply rd_Some in R2 as [_ ->].
  destruct (rd beg1 i) as [bp|] eqn:R3; simpl in H; [|discriminate].
  apply rd_Some in R3 as [_ ->].
  destruct (rd en2 i) as [ep|] eqn:R4; simpl in H; [|discriminate].
  apply rd_Some in R4 as [_ ->].
  destruct (Z.ltb_spec (ix en2 i - ix beg1 i) (ix en2 (i + 1) - ix beg1 (i + 1))); simpl in H.
  - destruct (wr beg1 (i + 1) (ix beg1 i)) as [beg2|] eqn:Eb2; simpl in H; [|discriminate].
    destruct (wr beg2 i (ix beg1 (i + 1))) as [beg3|] eqn:Eb3; simpl in H; [|discriminate].
    destruct (wr en2 (i + 1) (ix en2 i)) as [en3|] eqn:Ee3; simpl in H; [|discriminate].
    destruct (wr en3 i (ix en2 (i + 1))) as [en4|] eqn:Ee4; simpl in H; [|discriminate].
    destruct (wr_Some _ _ _ _ Eb2) as (_ & _ & _ & Xb2).
    destruct (wr_Some _ _ _ _ Eb3) as (_ & _ & _ & Xb3).
    destruct (wr_Some _ _ _ _ Ee3) as (_ & _ & _ & Xe3).
    destruct (wr_Some _ _ _ _ Ee4) as (_ & _ & _ & Xe4).
    apply (IH _ _ _ _ (Hsplit beg3 en4 ltac:(intros k Hk; split; ix_simpl; reflexivity)
                         ltac:(right; repeat split; ix_simpl; reflexivity)) H).
  - apply (IH _ _ _ _ (Hsplit beg1 en2 ltac:(intros k Hk; split; ix_simpl; reflexivity)
                         ltac:(left; repeat split; ix_simpl; reflexivity)) H).
Qed.

(** Twice the length plus one, summed over the first [n] stack entries:
    every iteration of the outer loop lowers it. *)
Fixpoint seg_sum (beg en : list Z) (n : nat) : Z :=
  match n with
  | O => 0
  | S m => seg_sum beg en m + (2 * (ix en (Z.of_nat m) - ix beg (Z.of_nat m)) + 1)
  end.

Lemma seg_sum_ext beg en beg' en' n :
  (forall k, 0 <= k < Z.of_nat n -> ix beg' k = ix beg k /\ ix en' k = ix en k) ->
  seg_sum beg' en' n = seg_sum beg en n.
Proof.
  induction n as [|n IHn]; intros H; simpl; [reflexivity|].
  rewrite IHn by (intros k Hk; apply H; lia).
  destruct (H (Z.of_nat n) ltac:(lia)) as [-> ->]. reflexivity.
Qed.

Lemma seg_sum_nonneg beg en n :
  (forall k, 0 <= k < Z.of_nat n -> ix beg k <= ix en k) -> 0 <= seg_sum beg en n.
Proof.
  induction n as [|n IHn]; intros H; simpl; [lia|].
  pose proof (H (Z.of_nat n) ltac:(lia)). assert (0 <= seg_sum beg en n) by (apply IHn; intros; apply H; lia).
  lia.
Qed.

Lemma seg_sum_succ beg en i :
  0 <= i -> seg_sum beg en (Z.to_nat (i + 1)) =
    seg_sum beg en (Z.to_nat i) + (2 * (ix en i - ix beg i) + 1).
Proof.
  intros Hi. replace (Z.to_nat (i + 1)) with (S (Z.to_nat i)) by lia. simpl.
  rewrite Z2Nat.id by lia. reflexivity.
Qed.

(** The stacks keep their [MAX_LEVELS] entries; entry [k] holds a segment
    of at most [N / 2^k] elements, so [i] stays below 31. *)
Definition qs_bound (beg en : list Z) (i : Z) : Prop :=
  Z.of_nat (length beg) = MAX_LEVELS /\ Z.of_nat (length en) = MAX_LEVELS /\ i < 31 /\
  forall k, 0 <= k <= i -> 2 ^ k * (ix en k - ix beg k) <= N.

Lemma qs_loop_total fuel arr beg en i :
  N < 2 ^ 31 -> qs_inv arr beg en i -> qs_bound beg en i ->
  seg_sum beg en (Z.to_nat (i + 1)) + N + 2 <= Z.of_nat fuel ->
  is_Some (qs_loop fuel arr beg en i).
Proof.
  intros HN. assert (HN0 : 0 <= N) by (unfold N; lia).
  revert arr beg en i. induction fuel as [|f IH]; intros arr beg en i Hinv Hbd Hf.
  { pose proof Hinv as (_ & _ & H3 & _).
    destruct (Z.le_gt_cases 0 i).
    - assert (0 <= seg_sum beg en (Z.to_nat (i + 1)))
        by (apply seg_sum_nonneg; intros k Hk; apply H3; lia). lia.
    - replace (Z.to_nat (i + 1)) with O in Hf by lia. simpl in Hf. lia. }
  simpl. destruct (Z.leb_spec 0 i) as [Hi|Hi]; simpl; [|eexists; reflexivity].
  pose proof Hinv as (Hl & _ & H3 & _). pose proof Hbd as (Hlb & Hle & Hi31 & Hpow).
  unfold MAX_LEVELS in Hlb, Hle.
  rewrite (rd_in beg i) by lia. simpl. rewrite (rd_in en i) by lia. simpl.
  destruct (H3 i ltac:(lia)) as [Hbe HeN].
  rewrite seg_sum_succ in Hf by exact Hi.
  assert (Hs0 : 0 <= seg_sum beg en (Z.to_nat i))
    by (apply seg_sum_nonneg; intros k Hk; apply H3; lia).
  destruct (Z.ltb_spec (ix beg i) (ix en i - 1)) as [Hs|Hs]; simpl.
  2:{ apply IH; [exact (qs_inv_pop _ _ _ _ Hinv Hi Hs)| |].
      - split; [exact (proj1 Hbd)|]. split; [exact (proj1 (proj2 Hbd))|].
        split; [lia|]. intros k Hk. apply Hpow. lia.
      - replace (i - 1 + 1) with i by lia. lia. }
  rewrite (rd_in arr (ix beg i)) by lia. simpl.
  destruct (partition_run_total arr (ix beg i) (ix en i) ltac:(lia) ltac:(lia) ltac:(lia) f
              ltac:(lia)) as (a' & L' & R' & arr2 & EP & Ew).
  rewrite EP. simpl. rewrite Ew. simpl.
  destruct (partition_result arr (ix beg i) (ix en i) ltac:(lia) ltac:(lia) ltac:(lia)
              f a' L' R' arr2 EP Ew)
    as (HL' & Hl2 & Hp2 & Hout & Ho & Hlo & Hpiv & Hup).
  (* the segment has at least two elements, so the pushed entry [i + 1] is
     below 31 *)
  assert (Hp2i : 2 ^ (i + 1) = 2 * 2 ^ i) by (rewrite Z.pow_add_r by lia; lia).
  assert (Hpi : 0 < 2 ^ i) by (apply Z.pow_pos_nonneg; lia).
  assert (Hi1 : i + 1 < 31).
  { apply (Z.pow_lt_mono_r_iff 2); [lia|lia|].
    pose proof (Hpow i ltac:(lia)). nia. }
  destruct (wr beg (i + 1) (L' + 1)) as [beg1|] eqn:Eb1;
    [|rewrite wr_in in Eb1 by lia; discriminate].
  destruct (wr en (i + 1) (ix en i)) as [en1|] eqn:Ee1;
    [|rewrite wr_in in Ee1 by lia; discriminate].
  destruct (wr_Some _ _ _ _ Eb1) as (_ & _ & Lb1 & Xb1).
  destruct (wr_Some _ _ _ _ Ee1) as (_ & _ & Le1 & Xe1).
  simpl.
  destruct (wr en1 i L') as [en2|] eqn:Ee2;
    [|rewrite wr_in in Ee2 by lia; discriminate].
  destruct (wr_Some _ _ _ _ Ee2) as (_ & _ & Le2 & Xe2).
  simpl. replace (i + 1 - 1) with i by lia.
  rewrite (rd_in beg1 (i + 1)) by lia. simpl. rewrite (rd_in en2 (i + 1)) by lia. simpl.
  rewrite (rd_in beg1 i) by lia. simpl. rewrite (rd_in en2 i) by lia. simpl.
  set (b := ix beg i) in *. set (e := ix en i) in *.
  assert (Hnext : forall beg' en',
    length beg' = length beg -> length en' = length en ->
    (forall k, 0 <= k < i -> ix beg' k = ix beg k /\ ix en' k = ix en k) ->
    ((ix beg' i = b /\ ix en' i = L' /\ ix beg' (i + 1) = L' + 1 /\
      ix en' (i + 1) = e /\ e - (L' + 1) <= L' - b) \/
     (ix beg' i = L' + 1 /\ ix en' i = e /\ ix beg' (i + 1) = b /\
      ix en' (i + 1) = L' /\ L' - b < e - (L' + 1))) ->
    is_Some (qs_loop f arr2 beg' en' (i + 1))).
  { intros beg' en' Hlb' Hle' Hold Hnew. apply IH.
    - apply (qs_inv_split arr beg en i arr2 beg' en' L' Hinv Hi HL' Hl2 Hp2 Hout Ho);
        [| |exact Hold|].
      + intros q Hq. rewrite Hpiv. destruct (Z.eq_dec q L') as [->|]; [lia|]. apply Hlo; lia.
      + intros q Hq. rewrite Hpiv. destruct (Z.eq_dec q L') as [->|]; [lia|]. apply Hup; lia.
      + destruct Hnew as [(? & ? & ? & ? & _)|(? & ? & ? & ? & _)]; [left|right]; tauto.
    - split; [unfold MAX_LEVELS; lia|]. split; [unfold MAX_LEVELS; lia|]. split; [lia|].
      pose proof (Hpow i ltac:(lia)) as Hpw.
      intros k Hk. destruct (Z.lt_ge_cases k i) as [Hki|Hki].
      + destruct (Hold k ltac:(lia)) as [-> ->]. apply Hpow. lia.
      + assert (k = i \/ k = i + 1) as [->| ->] by lia;
          destruct Hnew as [(E1 & E2 & E3 & E4 & Hc)|(E1 & E2 & E3 & E4 & Hc)];
          rewrite ?E1, ?E2, ?E3, ?E4; try rewrite Hp2i; nia.
    - rewrite (seg_sum_succ _ _ (i + 1)) by lia. rewrite (seg_sum_succ _ _ i) by lia.
      rewrite (seg_sum_ext beg en beg' en')
        by (intros k Hk; apply Hold; lia).
      destruct Hnew as [(E1 & E2 & E3 & E4 & _)|(E1 & E2 & E3 & E4 & _)];
        rewrite E1, E2, E3, E4; lia. }
  destruct (Z.ltb_spec (ix en2 i - ix beg1 i) (ix en2 (i + 1) - ix beg1 (i + 1))) as [Hc|Hc];
    simpl.
  - destruct (wr beg1 (i + 1) (ix beg1 i)) as [beg2|] eqn:Eb2;
      [|rewrite wr_in in Eb2 by lia; discriminate].
    destruct (wr_Some _ _ _ _ Eb2) as (_ & _ & Lb2 & Xb2). simpl.
    destruct (wr beg2 i (ix beg1 (i + 1))) as [beg3|] eqn:Eb3;
      [|rewrite wr_in in Eb3 by lia; discriminate].
    destruct (wr_Some _ _ _ _ Eb3) as (_ & _ & Lb3 & Xb3). simpl.
    destruct (wr en2 (i + 1) (ix en2 i)) as [en3|] eqn:Ee3;
      [|rewrite wr_in in Ee3 by lia; discriminate].
    destruct (wr_Some _ _ _ _ Ee3) as (_ & _ & Le3 & Xe3). simpl.
    destruct (wr en3 i (ix en2 (i + 1))) as [en4|] eqn:Ee4;
      [|rewrite wr_in in Ee4 by lia; discriminate].
    destruct (wr_Some _ _ _ _ Ee4) as (_ & _ & Le4 & Xe4).
    simpl. apply Hnext; [lia|lia| |].
    + intros k Hk; split; ix_simpl; reflexivity.
    + right. rewrite ?Xb3, ?Xb2, ?Xb1, ?Xe4, ?Xe3, ?Xe2, ?Xe1 in Hc by lia.
      ix_simpl; repeat split; lia.
  - apply Hnext; [lia|lia| |].
    + intros k Hk; split; ix_simpl; reflexivity.
    + left. rewrite ?Xb1, ?Xe2, ?Xe1 in Hc by lia. ix_simpl; repeat split; lia.
Qed.
End Stack.

Lemma insert_asc_perm x l : insert_asc x l ≡ₚ x :: l.
Proof.
  induction l as [|a t IH]; simpl; [reflexivity|].
  destruct (x <=? a); [reflexivity|]. rewrite IH. apply Permutation_swap.
Qed.

Lemma insert_asc_sorted_le x l :
  StronglySorted Z.le l -> StronglySorted Z.le (insert_asc x l).
Proof.
  induction l as [|a t IH]; intros Hs; simpl; [repeat constructor|].
  inversion Hs as [|? ? Ht Ha]; subst.
  destruct (Z.leb_spec x a).
  - constructor; [exact Hs|]. constructor; [assumption|].
    eapply List.Forall_impl; [|exact Ha]. intros y Hy; simpl in Hy. lia.
  - constructor; [apply IH; exact Ht|].
    apply List.Forall_forall. intros y Hy.
    apply (Permutation_in _ (insert_asc_perm x t)) in Hy as [<-|Hy]; [lia|].
    rewrite List.Forall_forall in Ha. apply Ha. exact Hy.
Qed.

Lemma sort_model_perm l : Disjoint.quicksort l ≡ₚ l.
Proof.
  induction l as [|a t IH]; simpl; [reflexivity|]. rewrite insert_asc_perm, IH. reflexivity.
Qed.

Lemma sort_model_sorted l : StronglySorted Z.le (Disjoint.quicksort l).
Proof.
  induction l as [|a t IH]; simpl; [constructor|]. apply insert_asc_sorted_le. exact IH.
Qed.

Lemma ix_sorted a :
  (forall q q', 0 <= q < q' -> q' < Z.of_nat (length a) -> ix a q <= ix a q') ->
  StronglySorted Z.le a.
Proof.
  induction a as [|x t IH]; intros H; [constructor|].
  constructor.
  - apply IH. intros q q' Hq Hq'. specialize (H (q + 1) (q' + 1) ltac:(lia)).
    simpl in H. unfold ix in H |- *.
    rewrite !Z2Nat.inj_add in H by lia. simpl in H.
    rewrite !Nat.add_1_r in H. apply H. lia.
  - apply List.Forall_forall. intros y Hy.
    apply (In_nth _ _ 0) in Hy as (k & Hk & <-).
    specialize (H 0 (Z.of_nat (S k)) ltac:(lia)). simpl in H.
    unfold ix in H. rewrite Nat2Z.id in H. simpl in H. apply H. lia.
Qed.


(** Two ascending arrangements of the same entries are equal. *)
Lemma sorted_perm_unique (l1 l2 : list Z) :
  StronglySorted Z.le l1 -> StronglySorted Z.le l2 -> l1 ≡ₚ l2 -> l1 = l2.
Proof.
  revert l2. induction l1 as [|x1 t1 IH]; intros l2 H1 H2 Hp.
  - symmetry. apply Permutation_nil. exact Hp.
  - destruct l2 as [|x2 t2]; [apply Permutation_nil_r in Hp; discriminate|].
    inversion H1 as [|? ? Ht1 Hx1]; inversion H2 as [|? ? Ht2 Hx2]; subst.
    rewrite List.Forall_forall in Hx1, Hx2.
    assert (Hin2 : In x2 (x1 :: t1)) by (apply (Permutation_in _ (symmetry Hp)); left; reflexivity).
    assert (Hin1 : In x1 (x2 :: t2)) by (apply (Permutation_in _ Hp); left; reflexivity).
    assert (x1 = x2) as <-.
    { destruct Hin2 as [->|Hin2]; [reflexivity|]. destruct Hin1 as [->|Hin1]; [reflexivity|].
      pose proof (Hx1 _ Hin2). pose proof (Hx2 _ Hin1). lia. }
    f_equal. apply IH; [exact Ht1|exact Ht2|]. apply (Permutation_cons_inv Hp).
Qed.

(** Whenever the in-place quicksort of lines 6-36 finishes (every array
    and stack access in range), it returns the ascending arrangement of the
    array: the result of the model [Disjoint.quicksort] used for the edge
    arrays. *)
Theorem quicksort_c_refines arr fuel res :
  QuickSortC.quicksort arr (Z.of_nat (length arr)) fuel = Some res ->
  res = Disjoint.quicksort arr.
Proof.
  unfold QuickSortC.quicksort. intros H.
  destruct (wr (repeat 0 (Z.to_nat MAX_LEVELS)) 0 0) as [beg|] eqn:Eb; [|discriminate].
  destruct (wr (repeat 0 (Z.to_nat MAX_LEVELS)) 0 (Z.of_nat (length arr))) as [en|] eqn:Ee;
    [|discriminate].
  simpl in H.
  destruct (wr_Some _ _ _ _ Eb) as (_ & _ & _ & Xb).
  destruct (wr_Some _ _ _ _ Ee) as (_ & _ & _ & Xe).
  assert (Hinv : qs_inv arr arr beg en 0).
  { split; [reflexivity|]. split; [reflexivity|].
    split; [intros k Hk; assert (k = 0) as -> by lia; rewrite Xb, Xe by lia; simpl; lia|].
    split; [intros k k' Hk Hk' Hne; lia|].
    intros c Hc Hn. specialize (Hn 0 ltac:(lia)). rewrite Xb, Xe in Hn by lia. simpl in Hn.
    intros q q' Hq Hq'. lia. }
  destruct (qs_loop_spec arr _ _ _ _ _ _ Hinv H) as [Hp Hcut].
  apply sorted_perm_unique.
  - apply ix_sorted. intros q q' Hq Hq'.
    rewrite Hp in Hq'. apply (Hcut (q + 1)); lia.
  - apply sort_model_sorted.
  - rewrite Hp. symmetry. apply sort_model_perm.
Qed.

(** Started on an array of fewer than [2^31] elements, the in-place
    quicksort finishes within [3 n + 3] iterations of its loops, never
    overflows its stack nor leaves the array, and returns the ascending
    arrangement of the array. *)
Theorem quicksort_c_total arr :
  Z.of_nat (length arr) < 2 ^ 31 ->
  QuickSortC.quicksort arr (Z.of_nat (length arr)) (3 * length arr + 3)
  = Some (Disjoint.quicksort arr).
Proof.
  intros HN. unfold QuickSortC.quicksort.
  destruct (wr (repeat 0 (Z.to_nat MAX_LEVELS)) 0 0) as [beg|] eqn:Eb;
    [|rewrite wr_in in Eb by (rewrite repeat_length; unfold MAX_LEVELS; lia); discriminate].
  destruct (wr (repeat 0 (Z.to_nat MAX_LEVELS)) 0 (Z.of_nat (length arr))) as [en|] eqn:Ee;
    [|rewrite wr_in in Ee by (rewrite repeat_length; unfold MAX_LEVELS; lia); discriminate].
  change (qs_loop (3 * length arr + 3) arr beg en 0 = Some (Disjoint.quicksort arr)).
  destruct (wr_Some _ _ _ _ Eb) as (_ & _ & Lb & Xb).
  destruct (wr_Some _ _ _ _ Ee) as (_ & _ & Le & Xe).
  rewrite repeat_length in Lb, Le.
  assert (Hinv : qs_inv arr arr beg en 0).
  { split; [reflexivity|]. split; [reflexivity|].
    split; [intros k Hk; assert (k = 0) as -> by lia; rewrite Xb, Xe by lia; simpl; lia|].
    split; [intros k k' Hk Hk' Hne; lia|].
    intros c Hc Hn. specialize (Hn 0 ltac:(lia)). rewrite Xb, Xe in Hn by lia. simpl in Hn.
    intros q q' Hq Hq'. lia. }
  destruct (qs_loop_total arr (3 * length arr + 3) arr beg en 0 HN Hinv) as [res Hres].
  - split; [unfold MAX_LEVELS in *; lia|]. split; [unfold MAX_LEVELS in *; lia|].
    split; [lia|]. intros k Hk. assert (k = 0) as -> by lia.
    rewrite Xb, Xe by lia. simpl. lia.
  - simpl. rewrite Xb, Xe by lia. simpl. lia.
  - rewrite Hres. f_equal.
    destruct (qs_loop_spec arr _ _ _ _ _ _ Hinv Hres) as [Hp Hcut].
    apply sorted_perm_unique.
    + apply ix_sorted. intros q q' Hq Hq'.
      rewrite Hp in Hq'. apply (Hcut (q + 1)); lia.
    + apply sort_model_sorted.
    + rewrite Hp. symmetry. apply sort_model_perm.
Qed.

Lemma quicksort_c_refines_witness :
  QuickSortC.quicksort [3; 1; 2; 1; 5; 0] 6 100 = Some [0; 1; 1; 2; 3; 5] /\
  [0; 1; 1; 2; 3; 5] = Disjoint.quicksort [3; 1; 2; 1; 5; 0].
Proof.
  split; [reflexivity|].
  apply (quicksort_c_refines [3; 1; 2; 1; 5; 0] 100). reflexivity.
Defined.

Lemma quicksort_c_total_witness :
  Z.of_nat (length [5; 4; 3; 2; 1; 0; 9; 8; 7; 7; 7]) < 2 ^ 31 /\
  QuickSortC.quicksort [5; 4; 3; 2; 1; 0; 9; 8; 7; 7; 7] 11 36
  = Some (Disjoint.quicksort [5; 4; 3; 2; 1; 0; 9; 8; 7; 7; 7]).
Proof.
  split; [simpl; lia|].
  apply (quicksort_c_total [5; 4; 3; 2; 1; 0; 9; 8; 7; 7; 7]). simpl; lia.
Defined.

(** ** What [mk_disjoint] computes when its grid stride is right *)

(** The test [covers] as a boolean. *)
Definition covers_b (r : rect) (px py : Z) : bool :=
  (rx r <=? px) && (px <? rx r + rw r) && (ry r <=? py) && (py <? ry r + rh r).

(** Number of rectangles of [rs] that cover the point [(px, py)]. *)
Definition cover_count (rs : list rect) (px py : Z) : nat :=
  length (List.filter (fun r => covers_b r px py) rs).

(** The update the marking pass applies to a cell: [|= 2] for an add
    rectangle, [^= 1] for a remove rectangle. *)
Definition mark_op (is_add : bool) : Z -> Z :=
  if is_add then fun v => Z.lor v 2 else fun v => Z.lxor v 1.

(** The corners of [r] are among the edges [ex] and [ey]. *)
Definition on_edges (ex ey : list Z) (r : rect) : Prop :=
  In (rx r) ex /\ In (rx r + rw r) ex /\ In (ry r) ey /\ In (ry r + rh r) ey.

Ltac md_case :=
  repeat (match goal with
          | |- context [?a <=? ?b] => destruct (Z.leb_spec a b)
          | |- context [?a <? ?b] => destruct (Z.ltb_spec a b)
          end; cbn [andb]); try lia; try reflexivity.

Lemma covers_b_spec r px py : covers_b r px py = true <-> covers r px py.
Proof.
  unfold covers_b, covers. rewrite !andb_true_iff, !Z.leb_le, !Z.ltb_lt. tauto.
Qed.

Lemma grid_get_Some grid q v :
  grid_get grid q = Some v -> 0 <= q < Z.of_nat (length grid) /\ v = ix grid q.
Proof.
  unfold grid_get, ix. destruct (Z.ltb_spec q 0); [discriminate|]. intros Hg.
  pose proof (lookup_lt_Some _ _ _ Hg). split; [lia|].
  symmetry. apply nth_lookup_Some. exact Hg.
Qed.

Lemma grid_get_in grid q :
  0 <= q < Z.of_nat (length grid) -> grid_get grid q = Some (ix grid q).
Proof.
  intros Hq. unfold grid_get, ix. destruct (Z.ltb_spec q 0); [lia|].
  destruct (nth_lookup_or_length grid (Z.to_nat q) 0) as [E|E]; [exact E|lia].
Qed.

Lemma nth_repeat_lt (n k : nat) (x d : Z) : (k < n)%nat -> nth k (repeat x n) d = x.
Proof.
  revert k. induction n as [|n IH]; intros k Hk; [lia|].
  destruct k as [|k]; simpl; [reflexivity|]. apply IH. lia.
Qed.

Lemma iter_comm {A} (f : A -> A) n x : Nat.iter n f (f x) = f (Nat.iter n f x).
Proof. induction n as [|n IH]; simpl; [reflexivity|]. rewrite IH. reflexivity. Qed.

Lemma iter_lor2 n v :
  Nat.iter n (mark_op true) v = if (n =? 0)%nat then v else Z.lor v 2.
Proof.
  induction n as [|n IH]; [reflexivity|]. rewrite Nat.iter_succ, IH. unfold mark_op.
  destruct n as [|n]; simpl; [reflexivity|].
  rewrite <- Z.lor_assoc, Z.lor_diag. reflexivity.
Qed.

Lemma iter_lxor1 n v :
  Nat.iter n (mark_op false) v = if Nat.even n then v else Z.lxor v 1.
Proof.
  induction n as [|n IH]; [reflexivity|]. rewrite Nat.iter_succ, IH.
  rewrite Nat.even_succ, <- Nat.negb_even. unfold mark_op.
  destruct (Nat.even n); simpl; [reflexivity|].
  rewrite Z.lxor_assoc, Z.lxor_nilpotent, Z.lxor_0_r. reflexivity.
Qed.

(** *** Strictly sorted edge arrays *)

Lemma sorted_nth_inj l a b :
  StronglySorted Z.lt l -> (a < length l)%nat -> (b < length l)%nat ->
  nth a l 0 = nth b l 0 -> a = b.
Proof.
  intros Hs Ha Hb E. destruct (lt_eq_lt_dec a b) as [[Hlt|]|Hlt]; [|assumption|].
  - pose proof (sorted_nth_lt l a b Hs Hlt Hb). lia.
  - pose proof (sorted_nth_lt l b a Hs Hlt Ha). lia.
Qed.

Lemma sorted_ix_leb l a b :
  StronglySorted Z.lt l -> 0 <= a < Z.of_nat (length l) -> 0 <= b < Z.of_nat (length l) ->
  (ix l a <=? ix l b) = (a <=? b).
Proof.
  intros Hs Ha Hb. unfold ix. destruct (Z.leb_spec a b).
  - apply Z.leb_le. apply sorted_nth_le; [exact Hs|lia|lia].
  - apply Z.leb_gt. apply sorted_nth_lt; [exact Hs|lia|lia].
Qed.

Lemma sorted_ix_ltb l a b :
  StronglySorted Z.lt l -> 0 <= a < Z.of_nat (length l) -> 0 <= b < Z.of_nat (length l) ->
  (ix l a <? ix l b) = (a <? b).
Proof.
  intros Hs Ha Hb. unfold ix. destruct (Z.ltb_spec a b).
  - apply Z.ltb_lt. apply sorted_nth_lt; [exact Hs|lia|lia].
  - apply Z.ltb_ge. apply sorted_nth_le; [exact Hs|lia|lia].
Qed.

(** An edge value as an index of the array. *)
Lemma In_ix l x : In x l -> exists p, 0 <= p < Z.of_nat (length l) /\ ix l p = x.
Proof.
  intros Hx. apply (In_nth _ _ 0) in Hx as (p & Hp & Hx).
  exists (Z.of_nat p). split; [lia|]. unfold ix. rewrite Nat2Z.id. exact Hx.
Qed.

(** [find] over a strictly sorted array returns the position of a present
    value, from any start not past it. *)
Lemma find_sorted l x i p :
  StronglySorted Z.lt l -> 0 <= p < Z.of_nat (length l) -> ix l p = x -> 0 <= i <= p ->
  find l (Z.of_nat (length l)) x i = p.
Proof.
  intros Hs Hp Hx Hi. unfold find.
  destruct (find_loop_spec l (Z.of_nat (length l)) x _ i ltac:(lia) eq_refl)
    as [[_ H]|(H1 & H2 & _)].
  - exfalso. exact (H p ltac:(lia) Hx).
  - assert (Z.to_nat (find_loop l (Z.of_nat (length l)) x i
                        (Z.to_nat (Z.of_nat (length l) - i))) = Z.to_nat p).
    { apply (sorted_nth_inj l); [exact Hs|lia|lia|]. rewrite H2. exact (eq_sym Hx). }
    lia.
Qed.

(** A value between two edges lies in exactly one gap of the edges. *)
Lemma sorted_locate l x :
  StronglySorted Z.lt l -> forall u v, In u l -> In v l -> u <= x < v ->
  exists j, 0 <= j /\ j + 1 < Z.of_nat (length l) /\ ix l j <= x < ix l (j + 1).
Proof.
  induction l as [|a t IH]; intros Hs u v Hu Hv Hx; [destruct Hu|].
  inversion Hs as [|? ? Ht Ha]; subst. rewrite List.Forall_forall in Ha.
  destruct t as [|b t'].
  - destruct Hu as [<-|[]]. destruct Hv as [<-|[]]. lia.
  - pose proof (Ha b (or_introl eq_refl)) as Hab.
    destruct (Z.lt_ge_cases x b) as [Hxb|Hxb].
    + exists 0. unfold ix. simpl. split; [lia|]. split; [lia|]. split; [|exact Hxb].
      destruct Hu as [<-|Hu]; [lia|]. pose proof (Ha u Hu). lia.
    + destruct Hv as [<-|Hv]; [lia|].
      destruct (IH Ht b v (or_introl eq_refl) Hv ltac:(lia)) as (j & Hj0 & Hj & Hxj).
      exists (j + 1). unfold ix in *. split; [lia|].
      split; [cbn [length] in Hj |- *; lia|].
      replace (Z.to_nat (j + 1)) with (S (Z.to_nat j)) by lia.
      replace (Z.to_nat (j + 1 + 1)) with (S (Z.to_nat (j + 1))) by lia.
      exact Hxj.
Qed.

Lemma sorted_ix_le l a b :
  StronglySorted Z.lt l -> 0 <= a <= b -> b < Z.of_nat (length l) -> ix l a <= ix l b.
Proof. intros Hs Hab Hb. unfold ix. apply sorted_nth_le; [exact Hs|lia|lia]. Qed.

Lemma sorted_ix_lt l a b :
  StronglySorted Z.lt l -> 0 <= a < b -> b < Z.of_nat (length l) -> ix l a < ix l b.
Proof. intros Hs Hab Hb. unfold ix. apply sorted_nth_lt; [exact Hs|lia|lia]. Qed.

(** For a point in the gap [j], a coordinate range with ends on the edges
    contains the point exactly when it contains the gap's left edge. *)
Lemma sorted_gap l a b j x :
  StronglySorted Z.lt l -> 0 <= a < Z.of_nat (length l) -> 0 <= b < Z.of_nat (length l) ->
  0 <= j -> j + 1 < Z.of_nat (length l) -> ix l j <= x < ix l (j + 1) ->
  ((ix l a <=? x) && (x <? ix l b)) = ((ix l a <=? ix l j) && (ix l j <? ix l b)).
Proof.
  intros Hs Ha Hb Hj Hj1 Hx.
  pose proof (sorted_ix_lt l j (j + 1) Hs ltac:(lia) Hj1).
  destruct (Z.le_gt_cases a j);
    [pose proof (sorted_ix_le l a j Hs ltac:(lia) ltac:(lia))
    |pose proof (sorted_ix_le l (j + 1) a Hs ltac:(lia) ltac:(lia))];
  (destruct (Z.le_gt_cases b j);
    [pose proof (sorted_ix_le l b j Hs ltac:(lia) ltac:(lia))
    |pose proof (sorted_ix_le l (j + 1) b Hs ltac:(lia) ltac:(lia))]); md_case.
Qed.

(** *** The marking pass cell by cell *)

Lemma mark_cols_spec op s k l n grid grid' :
  mark_cols op s k l n grid = Some grid' ->
  length grid' = length grid /\
  (forall j, l <= j < l + Z.of_nat n -> 0 <= s * k + j < Z.of_nat (length grid)) /\
  forall q, 0 <= q -> ix grid' q =
    if (l <=? q - s * k) && (q - s * k <? l + Z.of_nat n) then op (ix grid q) else ix grid q.
Proof.
  revert l grid. induction n as [|n IH]; intros l grid H; simpl in H.
  - injection H as <-. split; [reflexivity|]. split; [intros; lia|].
    intros q Hq. md_case.
  - destruct (grid_get grid (s * k + l)) as [v|] eqn:Eg; simpl in H; [|discriminate].
    destruct (grid_set grid (s * k + l) (op v)) as [g1|] eqn:Es; simpl in H; [|discriminate].
    change (grid_set grid (s * k + l) (op v)) with (wr grid (s * k + l) (op v)) in Es.
    destruct (wr_Some _ _ _ _ Es) as (Hr & _ & Hl1 & Hix).
    destruct (grid_get_Some _ _ _ Eg) as [_ ->].
    destruct (IH (l + 1) g1 H) as (Hl2 & Hin & Hix2).
    split; [congruence|]. split.
    + intros j Hj. destruct (Z.eq_dec j l) as [->|]; [lia|].
      specialize (Hin j ltac:(lia)). lia.
    + intros q Hq. rewrite Hix2 by lia. rewrite !Hix by lia.
      destruct (Z.eq_dec q (s * k + l)) as [->|]; md_case.
Qed.

Lemma mark_cols_length op s k l n grid grid' :
  mark_cols op s k l n grid = Some grid' -> length grid' = length grid.
Proof. intros H. exact (proj1 (mark_cols_spec _ _ _ _ _ _ _ H)). Qed.

Lemma mark_rows_length op s k c0 c1 n grid grid' :
  mark_rows op s k c0 c1 n grid = Some grid' -> length grid' = length grid.
Proof.
  revert k grid. induction n as [|n IH]; intros k grid H; simpl in H.
  - injection H as <-. reflexivity.
  - destruct (mark_cols op s k c0 (Z.to_nat (c1 - c0)) grid) as [g1|] eqn:E1;
      simpl in H; [|discriminate].
    rewrite (IH _ _ H). exact (mark_cols_length _ _ _ _ _ _ _ E1).
Qed.

Lemma mark_cols_total op s k l n grid :
  (forall j, l <= j < l + Z.of_nat n -> 0 <= s * k + j < Z.of_nat (length grid)) ->
  is_Some (mark_cols op s k l n grid).
Proof.
  revert l grid. induction n as [|n IH]; intros l grid Hin; simpl; [eexists; reflexivity|].
  rewrite grid_get_in by (apply Hin; lia). simpl.
  change (grid_set grid (s * k + l) (op (ix grid (s * k + l))))
    with (wr grid (s * k + l) (op (ix grid (s * k + l)))).
  rewrite wr_in by (apply Hin; lia). simpl.
  apply IH. intros j Hj. rewrite length_insert. apply Hin. lia.
Qed.

Lemma mark_rows_total op s k c0 c1 n grid :
  (forall i j, k <= i < k + Z.of_nat n -> c0 <= j < c1 ->
     0 <= s * i + j < Z.of_nat (length grid)) ->
  is_Some (mark_rows op s k c0 c1 n grid).
Proof.
  revert k grid. induction n as [|n IH]; intros k grid Hin; simpl; [eexists; reflexivity|].
  destruct (mark_cols_total op s k c0 (Z.to_nat (c1 - c0)) grid) as [g1 E1].
  { intros j Hj. apply Hin; lia. }
  rewrite E1. simpl. apply IH. rewrite (mark_cols_length _ _ _ _ _ _ _ E1).
  intros i j Hi Hj. apply Hin; lia.
Qed.

Section MarkCells.

(** The index [s * i + j] of cell (row [i], column [j]) of the [s]-row,
    [w]-column grid; [Hinj]: distinct cells have distinct indices. *)
Variables (s w : Z).
Hypothesis Hinj : forall i j i' j', 0 <= i < s -> 0 <= j < w -> 0 <= i' < s -> 0 <= j' < w ->
  s * i + j = s * i' + j' -> i = i' /\ j = j'.

Lemma mark_rows_spec op k c0 c1 n grid grid' :
  0 <= k -> k + Z.of_nat n <= s -> 0 <= c0 -> c1 <= w ->
  mark_rows op s k c0 c1 n grid = Some grid' ->
  forall i j, 0 <= i < s -> 0 <= j < w ->
    ix grid' (s * i + j) =
    if (k <=? i) && (i <? k + Z.of_nat n) && (c0 <=? j) && (j <? c1)
    then op (ix grid (s * i + j)) else ix grid (s * i + j).
Proof.
  revert k grid. induction n as [|n IH]; intros k grid Hk Hn Hc0 Hc1 H; simpl in H.
  - injection H as <-. intros i j Hi Hj. md_case.
  - destruct (mark_cols op s k c0 (Z.to_nat (c1 - c0)) grid) as [g1|] eqn:E1;
      simpl in H; [|discriminate].
    destruct (mark_cols_spec _ _ _ _ _ _ _ E1) as (_ & _ & Hix1).
    intros i j Hi Hj.
    rewrite (IH (k + 1) g1 ltac:(lia) ltac:(lia) Hc0 Hc1 H i j Hi Hj).
    rewrite !Hix1 by nia.
    destruct (Z.eq_dec i k) as [->|Hik].
    + replace (s * k + j - s * k) with j by lia. md_case.
    + assert (Hno : ~ (c0 <= s * i + j - s * k < c0 + Z.of_nat (Z.to_nat (c1 - c0)))).
      { intros Hq. destruct (Hinj i j k (s * i + j - s * k) Hi Hj ltac:(lia) ltac:(lia)
                              ltac:(lia)). contradiction. }
      md_case.
Qed.

Variables (ex ey : list Z).
Hypotheses (Hx : StronglySorted Z.lt ex) (Hy : StronglySorted Z.lt ey).
Hypotheses (Hs : s = Z.of_nat (length ey) - 1) (Hw : w = Z.of_nat (length ex) - 1).

Lemma mark_rect_unfold b grid r :
  mark_rect b ex ey grid r =
  if nondegenerate r then
    mark_rows (mark_op b) (Z.of_nat (length ey) - 1)
      (find ey (Z.of_nat (length ey)) (ry r) 0)
      (find ex (Z.of_nat (length ex)) (rx r) 0)
      (find ex (Z.of_nat (length ex)) (rx r + rw r) (find ex (Z.of_nat (length ex)) (rx r) 0))
      (Z.to_nat (find ey (Z.of_nat (length ey)) (ry r + rh r)
                   (find ey (Z.of_nat (length ey)) (ry r) 0)
                 - find ey (Z.of_nat (length ey)) (ry r) 0)) grid
  else Some grid.
Proof. unfold mark_rect, nondegenerate, mark_op. destruct b; reflexivity. Qed.

(** Marking [r] updates exactly the cells whose top-left corner [r]
    covers. *)
Lemma mark_rect_spec b grid r grid' :
  on_edges ex ey r -> mark_rect b ex ey grid r = Some grid' ->
  length grid' = length grid /\
  forall i j, 0 <= i < s -> 0 <= j < w ->
    ix grid' (s * i + j) =
    if covers_b r (ix ex j) (ix ey i) then mark_op b (ix grid (s * i + j))
    else ix grid (s * i + j).
Proof.
  intros (Ex0 & Ex1 & Ey0 & Ey1) H. rewrite mark_rect_unfold in H.
  unfold nondegenerate in H. destruct ((rw r >? 0) && (rh r >? 0)) eqn:Hd.
  - apply andb_true_iff in Hd as [Hd1 Hd2]. apply Z.gtb_lt in Hd1, Hd2.
    destruct (In_ix _ _ Ex0) as (q0 & Hq0 & Eq0).
    destruct (In_ix _ _ Ex1) as (q1 & Hq1 & Eq1).
    destruct (In_ix _ _ Ey0) as (p0 & Hp0 & Ep0).
    destruct (In_ix _ _ Ey1) as (p1 & Hp1 & Ep1).
    assert (q0 < q1).
    { destruct (Z.lt_ge_cases q0 q1); [assumption|].
      pose proof (sorted_ix_le ex q1 q0 Hx ltac:(lia) ltac:(lia)). lia. }
    assert (p0 < p1).
    { destruct (Z.lt_ge_cases p0 p1); [assumption|].
      pose proof (sorted_ix_le ey p1 p0 Hy ltac:(lia) ltac:(lia)). lia. }
    rewrite (find_sorted ey (ry r) 0 p0 Hy Hp0 Ep0 ltac:(lia)) in H.
    rewrite (find_sorted ey (ry r + rh r) p0 p1 Hy Hp1 Ep1 ltac:(lia)) in H.
    rewrite (find_sorted ex (rx r) 0 q0 Hx Hq0 Eq0 ltac:(lia)) in H.
    rewrite (find_sorted ex (rx r + rw r) q0 q1 Hx Hq1 Eq1 ltac:(lia)) in H.
    rewrite <- Hs in H.
    split; [exact (mark_rows_length _ _ _ _ _ _ _ _ H)|].
    intros i j Hi Hj.
    rewrite (mark_rows_spec (mark_op b) p0 q0 q1 (Z.to_nat (p1 - p0)) grid grid' ltac:(lia) ltac:(lia) ltac:(lia) ltac:(lia) H i j Hi Hj).
    unfold covers_b. rewrite <- Eq1, <- Eq0, <- Ep1, <- Ep0.
    rewrite (sorted_ix_leb ex q0 j Hx), (sorted_ix_ltb ex j q1 Hx),
      (sorted_ix_leb ey p0 i Hy), (sorted_ix_ltb ey i p1 Hy) by lia.
    md_case.
  - injection H as <-. split; [reflexivity|]. intros i j Hi Hj.
    unfold covers_b. apply andb_false_iff in Hd as [Hd|Hd]; rewrite Z.gtb_ltb in Hd; apply Z.ltb_ge in Hd; md_case.
Qed.

Lemma mark_list_spec b rs grid grid' :
  Forall (on_edges ex ey) rs -> mark_list b ex ey rs grid = Some grid' ->
  length grid' = length grid /\
  forall i j, 0 <= i < s -> 0 <= j < w ->
    ix grid' (s * i + j) =
    Nat.iter (cover_count rs (ix ex j) (ix ey i)) (mark_op b) (ix grid (s * i + j)).
Proof.
  revert grid. induction rs as [|r rs IH]; intros grid Hon H; simpl in H.
  - injection H as <-. split; [reflexivity|]. intros i j Hi Hj. reflexivity.
  - apply Forall_cons in Hon as [Hr Hrs].
    destruct (mark_rect b ex ey grid r) as [g1|] eqn:E1; simpl in H; [|discriminate].
    destruct (mark_rect_spec _ _ _ _ Hr E1) as (Hl1 & Hix1).
    destruct (IH g1 Hrs H) as (Hl2 & Hix2).
    split; [congruence|]. intros i j Hi Hj.
    rewrite Hix2, Hix1 by assumption. unfold cover_count. simpl.
    destruct (covers_b r (ix ex j) (ix ey i)); simpl; [|reflexivity].
    apply iter_comm.
Qed.

(** With every cell index inside the grid, marking a rectangle whose
    corners are edges stays inside it. *)
Lemma mark_rect_total b grid r :
  on_edges ex ey r ->
  (forall i j, 0 <= i < s -> 0 <= j < w -> 0 <= s * i + j < Z.of_nat (length grid)) ->
  is_Some (mark_rect b ex ey grid r).
Proof.
  intros (Ex0 & Ex1 & Ey0 & Ey1) Hin. rewrite mark_rect_unfold.
  unfold nondegenerate. destruct ((rw r >? 0) && (rh r >? 0)) eqn:Hd; [|eexists; reflexivity].
  apply andb_true_iff in Hd as [Hd1 Hd2]. apply Z.gtb_lt in Hd1, Hd2.
  destruct (In_ix _ _ Ex0) as (q0 & Hq0 & Eq0).
  destruct (In_ix _ _ Ex1) as (q1 & Hq1 & Eq1).
  destruct (In_ix _ _ Ey0) as (p0 & Hp0 & Ep0).
  destruct (In_ix _ _ Ey1) as (p1 & Hp1 & Ep1).
  assert (q0 < q1).
  { destruct (Z.lt_ge_cases q0 q1); [assumption|].
    pose proof (sorted_ix_le ex q1 q0 Hx ltac:(lia) ltac:(lia)). lia. }
  assert (p0 < p1).
  { destruct (Z.lt_ge_cases p0 p1); [assumption|].
    pose proof (sorted_ix_le ey p1 p0 Hy ltac:(lia) ltac:(lia)). lia. }
  rewrite (find_sorted ey (ry r) 0 p0 Hy Hp0 Ep0 ltac:(lia)).
  rewrite (find_sorted ey (ry r + rh r) p0 p1 Hy Hp1 Ep1 ltac:(lia)).
  rewrite (find_sorted ex (rx r) 0 q0 Hx Hq0 Eq0 ltac:(lia)).
  rewrite (find_sorted ex (rx r + rw r) q0 q1 Hx Hq1 Eq1 ltac:(lia)).
  rewrite <- Hs. apply mark_rows_total. intros i j Hi Hj. apply Hin; lia.
Qed.

Lemma mark_list_total b rs grid :
  Forall (on_edges ex ey) rs ->
  (forall i j, 0 <= i < s -> 0 <= j < w -> 0 <= s * i + j < Z.of_nat (length grid)) ->
  is_Some (mark_list b ex ey rs grid).
Proof.
  revert grid. induction rs as [|r rs IH]; intros grid Hon Hin; simpl; [eexists; reflexivity|].
  apply Forall_cons in Hon as [Hr Hrs].
  destruct (mark_rect_total b grid r Hr Hin) as [g1 E1]. rewrite E1. simpl.
  apply IH; [exact Hrs|].
  assert (Hl : length g1 = length grid).
  { pose proof E1 as E1'. rewrite mark_rect_unfold in E1'.
    destruct (nondegenerate r); [exact (mark_rows_length _ _ _ _ _ _ _ _ E1')|].
    injection E1' as <-. reflexivity. }
  rewrite Hl. exact Hin.
Qed.

End MarkCells.

(** *** The emission pass cell by cell *)

Lemma emit_cols_spec ex ey grid s i j n out :
  emit_cols ex ey grid s i j n = Some out ->
  (forall j', j <= j' < j + Z.of_nat n -> 0 <= s * i + j' < Z.of_nat (length grid)) /\
  forall o, In o out <->
    exists j', j <= j' < j + Z.of_nat n /\ ix grid (s * i + j') = 3 /\ o = cell ex ey i j'.
Proof.
  revert j out. induction n as [|n IH]; intros j out H; simpl in H.
  - injection H as <-. split; [intros; lia|].
    intros o. split; [intros []|intros (j' & Hj' & _); lia].
  - destruct (grid_get grid (s * i + j)) as [v|] eqn:Eg; simpl in H; [|discriminate].
    destruct (emit_cols ex ey grid s i (j + 1) n) as [rest|] eqn:Er;
      simpl in H; [|discriminate].
    injection H as <-. destruct (grid_get_Some _ _ _ Eg) as [Hr ->].
    destruct (IH _ _ Er) as [Hin Hiff]. split.
    + intros j' Hj'. destruct (Z.eq_dec j' j) as [->|]; [exact Hr|]. apply Hin. lia.
    + intros o. destruct (Z.eqb_spec (ix grid (s * i + j)) 3) as [E3|E3]; simpl;
        rewrite ?Hiff; split.
      * intros [<-|(j' & Hj' & H3 & ->)].
        -- exists j. split; [lia|]. split; [exact E3|reflexivity].
        -- exists j'. split; [lia|]. split; [exact H3|reflexivity].
      * intros (j' & Hj' & H3 & ->). destruct (Z.eq_dec j' j) as [->|]; [left; reflexivity|].
        right. exists j'. split; [lia|]. split; [exact H3|reflexivity].
      * intros (j' & Hj' & H3 & ->). exists j'. split; [lia|]. split; [exact H3|reflexivity].
      * intros (j' & Hj' & H3 & ->). destruct (Z.eq_dec j' j) as [->|]; [contradiction|].
        exists j'. split; [lia|]. split; [exact H3|reflexivity].
Qed.

Lemma emit_rows_spec ex ey grid s i ncols n out :
  emit_rows ex ey grid s i ncols n = Some out ->
  (forall i' j', i <= i' < i + Z.of_nat n -> 0 <= j' < Z.of_nat ncols ->
     0 <= s * i' + j' < Z.of_nat (length grid)) /\
  forall o, In o out <->
    exists i' j', i <= i' < i + Z.of_nat n /\ 0 <= j' < Z.of_nat ncols /\
      ix grid (s * i' + j') = 3 /\ o = cell ex ey i' j'.
Proof.
  revert i out. induction n as [|n IH]; intros i out H; simpl in H.
  - injection H as <-. split; [intros; lia|].
    intros o. split; [intros []|intros (i' & j' & Hi' & _); lia].
  - destruct (emit_cols ex ey grid s i 0 ncols) as [a|] eqn:Ea; simpl in H; [|discriminate].
    destruct (emit_rows ex ey grid s (i + 1) ncols n) as [b|] eqn:Eb;
      simpl in H; [|discriminate].
    injection H as <-.
    destruct (emit_cols_spec _ _ _ _ _ _ _ _ Ea) as [Hin1 Hiff1].
    destruct (IH _ _ Eb) as [Hin2 Hiff2]. split.
    + intros i' j' Hi' Hj'. destruct (Z.eq_dec i' i) as [->|]; [apply Hin1; lia|].
      apply Hin2; lia.
    + intros o. rewrite in_app_iff, Hiff1, Hiff2. split.
      * intros [(j' & Hj' & H3 & ->)|(i' & j' & Hi' & Hj' & H3 & ->)].
        -- exists i, j'. split; [lia|]. split; [lia|]. split; [exact H3|reflexivity].
        -- exists i', j'. split; [lia|]. split; [lia|]. split; [exact H3|reflexivity].
      * intros (i' & j' & Hi' & Hj' & H3 & ->). destruct (Z.eq_dec i' i) as [->|].
        -- left. exists j'. split; [lia|]. split; [exact H3|reflexivity].
        -- right. exists i', j'. split; [lia|]. split; [lia|]. split; [exact H3|reflexivity].
Qed.

Lemma emit_cols_total ex ey grid s i j n :
  (forall j', j <= j' < j + Z.of_nat n -> 0 <= s * i + j' < Z.of_nat (length grid)) ->
  is_Some (emit_cols ex ey grid s i j n).
Proof.
  revert j. induction n as [|n IH]; intros j Hin; simpl; [eexists; reflexivity|].
  rewrite grid_get_in by (apply Hin; lia). simpl.
  destruct (IH (j + 1) ltac:(intros j' Hj'; apply Hin; lia)) as [rest ->].
  eexists; reflexivity.
Qed.

Lemma emit_rows_total ex ey grid s i ncols n :
  (forall i' j', i <= i' < i + Z.of_nat n -> 0 <= j' < Z.of_nat ncols ->
     0 <= s * i' + j' < Z.of_nat (length grid)) ->
  is_Some (emit_rows ex ey grid s i ncols n).
Proof.
  revert i. induction n as [|n IH]; intros i Hin; simpl; [eexists; reflexivity|].
  destruct (emit_cols_total ex ey grid s i 0 ncols) as [a ->].
  { intros j' Hj'. apply Hin; lia. }
  destruct (IH (i + 1) ltac:(intros i' j' Hi' Hj'; apply Hin; lia)) as [b ->].
  eexists; reflexivity.
Qed.

(** *** Cells and points *)

(** The row stride [s] gives distinct indices to the cells of an [s]-row,
    [w]-column grid when [w <= s] or when there is a single row. *)
Lemma stride_inj s w :
  w <= s \/ s <= 1 ->
  forall i j i' j', 0 <= i < s -> 0 <= j < w -> 0 <= i' < s -> 0 <= j' < w ->
  s * i + j = s * i' + j' -> i = i' /\ j = j'.
Proof.
  intros Hc i j i' j' Hi Hj Hi' Hj' E. destruct Hc as [Hc|Hc].
  - destruct (Z.lt_trichotomy i i') as [Hlt|[->|Hlt]]; [nia|lia|nia].
  - assert (i = 0) by lia. assert (i' = 0) by lia. subst. lia.
Qed.

Lemma covers_b_split r px py :
  covers_b r px py =
  ((rx r <=? px) && (px <? rx r + rw r)) && ((ry r <=? py) && (py <? ry r + rh r)).
Proof.
  unfold covers_b.
  destruct (rx r <=? px), (px <? rx r + rw r), (ry r <=? py), (py <? ry r + rh r); reflexivity.
Qed.

(** A rectangle with corners on the edges covers a point of a cell exactly
    when it covers the cell's top-left corner. *)
Lemma covers_b_gap ex ey r i j px py :
  StronglySorted Z.lt ex -> StronglySorted Z.lt ey -> on_edges ex ey r ->
  0 <= i -> i + 1 < Z.of_nat (length ey) -> ix ey i <= py < ix ey (i + 1) ->
  0 <= j -> j + 1 < Z.of_nat (length ex) -> ix ex j <= px < ix ex (j + 1) ->
  covers_b r px py = covers_b r (ix ex j) (ix ey i).
Proof.
  intros Hx Hy (Ex0 & Ex1 & Ey0 & Ey1) Hi Hi1 Hpy Hj Hj1 Hpx.
  destruct (In_ix _ _ Ex0) as (q0 & Hq0 & Eq0).
  destruct (In_ix _ _ Ex1) as (q1 & Hq1 & Eq1).
  destruct (In_ix _ _ Ey0) as (p0 & Hp0 & Ep0).
  destruct (In_ix _ _ Ey1) as (p1 & Hp1 & Ep1).
  rewrite !covers_b_split. rewrite <- Eq1, <- Eq0, <- Ep1, <- Ep0.
  rewrite (sorted_gap ex q0 q1 j px Hx Hq0 Hq1 Hj Hj1 Hpx).
  rewrite (sorted_gap ey p0 p1 i py Hy Hp0 Hp1 Hi Hi1 Hpy).
  reflexivity.
Qed.

Lemma cover_count_gap ex ey rs i j px py :
  StronglySorted Z.lt ex -> StronglySorted Z.lt ey -> Forall (on_edges ex ey) rs ->
  0 <= i -> i + 1 < Z.of_nat (length ey) -> ix ey i <= py < ix ey (i + 1) ->
  0 <= j -> j + 1 < Z.of_nat (length ex) -> ix ex j <= px < ix ex (j + 1) ->
  cover_count rs px py = cover_count rs (ix ex j) (ix ey i).
Proof.
  intros Hx Hy Hon Hi Hi1 Hpy Hj Hj1 Hpx. unfold cover_count.
  induction rs as [|r rs IH]; [reflexivity|].
  apply Forall_cons in Hon as [Hr Hrs]. simpl.
  rewrite (covers_b_gap ex ey r i j px py Hx Hy Hr Hi Hi1 Hpy Hj Hj1 Hpx).
  destruct (covers_b r (ix ex j) (ix ey i)); simpl; rewrite IH by exact Hrs; reflexivity.
Qed.

Lemma cover_count_pos rs px py :
  (0 < cover_count rs px py)%nat <-> exists r, In r rs /\ covers r px py.
Proof.
  unfold cover_count. induction rs as [|a rs IH]; simpl.
  - split; [lia|]. intros (r & [] & _).
  - destruct (covers_b a px py) eqn:E; simpl.
    + split; [|lia]. intros _. exists a. split; [left; reflexivity|].
      apply covers_b_spec. exact E.
    + rewrite IH. split.
      * intros (r & Hr & Hc). exists r. split; [right; exact Hr|exact Hc].
      * intros (r & [<-|Hr] & Hc); [apply covers_b_spec in Hc; congruence|].
        exists r. split; assumption.
Qed.

(** *** [mk_disjoint] *)

(** Shared opening of [mk_disjoint]: strictly sorted edges with every input
    corner among them. *)
Lemma mk_disjoint_edges add rm ex0 ey0 :
  get_edges add rm = (ex0, ey0) ->
  StronglySorted Z.lt (Disjoint.quicksort ex0) /\ StronglySorted Z.lt (Disjoint.quicksort ey0) /\
  length (Disjoint.quicksort ex0) = length ex0 /\ length (Disjoint.quicksort ey0) = length ey0 /\
  Forall (on_edges (Disjoint.quicksort ex0) (Disjoint.quicksort ey0)) add /\
  Forall (on_edges (Disjoint.quicksort ex0) (Disjoint.quicksort ey0)) rm.
Proof.
  intros E. destruct (get_edges_NoDup _ _ _ _ E) as [Hnx Hny].
  pose proof (get_edges_contains add rm) as Hc. rewrite E in Hc. simpl in Hc.
  split; [apply quicksort_sorted; exact Hnx|]. split; [apply quicksort_sorted; exact Hny|].
  split; [apply Permutation_length, sort_model_perm|].
  split; [apply Permutation_length, sort_model_perm|].
  apply Forall_app. apply (Forall_impl _ _ _ Hc). intros r (H1 & H2 & H3 & H4).
  unfold on_edges. rewrite !quicksort_In. tauto.
Qed.

(** When [mk_disjoint] returns and its row stride [n_edges[1] - 1] is right
    (there are no more distinct x edges than y edges, or at most two y
    edges), a point is covered by the output exactly when some add
    rectangle covers it and an even number of remove rectangles cover it:
    the remove bit is toggled, not cleared. *)
Theorem mk_disjoint_coverage_parity add rm out :
  (length (get_edges add rm).1 <= length (get_edges add rm).2 \/
   length (get_edges add rm).2 <= 2)%nat ->
  mk_disjoint add rm = Some out ->
  forall px py,
    (exists o, In o out /\ covers o px py) <->
    (exists a, In a add /\ covers a px py) /\ Nat.Even (cover_count rm px py).
Proof.
  intros Hlen. unfold mk_disjoint.
  destruct (get_edges add rm) as [ex0 ey0] eqn:E. simpl in Hlen.
  destruct (mk_disjoint_edges _ _ _ _ E) as (Hx & Hy & Hlx & Hly & Hona & Honr).
  destruct (mark_all _ _ _ add rm) as [grid|] eqn:Em; simpl; [|discriminate].
  intros Hout px py.
  set (ex := Disjoint.quicksort ex0) in *. set (ey := Disjoint.quicksort ey0) in *.
  set (s := Z.of_nat (length ey) - 1) in *. set (w := Z.of_nat (length ex) - 1) in *.
  unfold mark_all in Em.
  destruct (mark_list true ex ey add _) as [g1|] eqn:E1; simpl in Em; [|discriminate].
  assert (Hinj := stride_inj s w ltac:(unfold s, w; lia)).
  destruct (mark_list_spec s w Hinj ex ey Hx Hy eq_refl eq_refl true add _ g1 Hona E1)
    as (Hl1 & Hv1).
  destruct (mark_list_spec s w Hinj ex ey Hx Hy eq_refl eq_refl false rm g1 grid Honr Em)
    as (Hl2 & Hv2).
  destruct (emit_rows_spec _ _ _ _ _ _ _ _ Hout) as (Hin & Hiff).
  rewrite repeat_length in Hl1.
  (* the value of a cell: [3] exactly for "add, and an even number of rm" *)
  assert (Hval : forall i j, 0 <= i < s -> 0 <= j < w ->
    ix grid (s * i + j) = 3 <->
    (0 < cover_count add (ix ex j) (ix ey i))%nat /\
    Nat.Even (cover_count rm (ix ex j) (ix ey i))).
  { intros i j Hi Hj. rewrite Hv2, Hv1 by assumption. rewrite iter_lxor1, iter_lor2.
    assert (H1 : ix (repeat 1 (Z.to_nat (w * s))) (s * i + j) = 1).
    { pose proof (Hin i j ltac:(lia) ltac:(lia)) as Hr.
      unfold ix. apply nth_repeat_lt. lia. }
    rewrite H1, <- Nat.even_spec.
    destruct (Nat.eqb_spec (cover_count add (ix ex j) (ix ey i)) 0) as [->|Hne];
      destruct (Nat.even (cover_count rm (ix ex j) (ix ey i))); cbn;
      split; intros Hv; try discriminate; try lia; try (destruct Hv; discriminate);
      try (split; [lia|reflexivity]); reflexivity. }
  split.
  - intros (o & Ho & Hcov). apply Hiff in Ho as (i & j & Hi & Hj & H3 & ->).
    apply Hval in H3 as [Hpos Hev]; [|lia|lia].
    assert (Hp : ix ex j <= px < ix ex (j + 1) /\ ix ey i <= py < ix ey (i + 1)).
    { unfold cell, covers in Hcov. simpl in Hcov. unfold ix. lia. }
    rewrite <- (cover_count_gap ex ey add i j px py Hx Hy Hona ltac:(lia) ltac:(lia)
                  ltac:(lia) ltac:(lia) ltac:(lia) ltac:(lia)) in Hpos.
    rewrite <- (cover_count_gap ex ey rm i j px py Hx Hy Honr ltac:(lia) ltac:(lia)
                  ltac:(lia) ltac:(lia) ltac:(lia) ltac:(lia)) in Hev.
    split; [apply cover_count_pos; exact Hpos|exact Hev].
  - intros [(a & Ha & Hca) Hev].
    pose proof (proj1 (List.Forall_forall _ _) Hona a Ha) as (Ex0 & Ex1 & Ey0 & Ey1).
    pose proof Hca as (Hcx & Hcy).
    destruct (sorted_locate ex px Hx _ _ Ex0 Ex1 Hcx) as (j & Hj0 & Hj1 & Hjx).
    destruct (sorted_locate ey py Hy _ _ Ey0 Ey1 Hcy) as (i & Hi0 & Hi1 & Hiy).
    exists (cell ex ey i j). split.
    + apply Hiff. exists i, j. split; [lia|]. split; [lia|]. split; [|reflexivity].
      apply Hval; [lia|lia|]. split.
      * rewrite <- (cover_count_gap ex ey add i j px py Hx Hy Hona Hi0 Hi1 Hiy Hj0 Hj1 Hjx).
        apply cover_count_pos. exists a. split; assumption.
      * rewrite <- (cover_count_gap ex ey rm i j px py Hx Hy Honr Hi0 Hi1 Hiy Hj0 Hj1 Hjx).
        exact Hev.
    + unfold cell, covers. simpl. unfold ix in *. lia.
Qed.

Lemma mk_disjoint_coverage_parity_witness :
  (length (get_edges [mkRect 0 0 10 10] [mkRect 0 0 10 10; mkRect 0 0 10 10]).1 <=
   length (get_edges [mkRect 0 0 10 10] [mkRect 0 0 10 10; mkRect 0 0 10 10]).2 \/
   length (get_edges [mkRect 0 0 10 10] [mkRect 0 0 10 10; mkRect 0 0 10 10]).2 <= 2)%nat /\
  mk_disjoint [mkRect 0 0 10 10] [mkRect 0 0 10 10; mkRect 0 0 10 10]
    = Some [mkRect 0 0 10 10] /\
  ((exists o, In o [mkRect 0 0 10 10] /\ covers o 3 4) <->
   (exists a, In a [mkRect 0 0 10 10] /\ covers a 3 4) /\
   Nat.Even (cover_count [mkRect 0 0 10 10; mkRect 0 0 10 10] 3 4)).
Proof.
  split; [left; vm_compute; lia|]. split; [reflexivity|].
  apply (mk_disjoint_coverage_parity [mkRect 0 0 10 10] [mkRect 0 0 10 10; mkRect 0 0 10 10]);
    [left; vm_compute; lia|reflexivity].
Defined.

(** When there are at least as many distinct x edges as y edges, or at most
    two y edges, every grid access of [mk_disjoint] is inside the allocated
    [(n_edges[0] - 1) * (n_edges[1] - 1)] cells: it returns a result. *)
Theorem mk_disjoint_defined add rm :
  (length (get_edges add rm).2 <= length (get_edges add rm).1 \/
   length (get_edges add rm).2 <= 2)%nat ->
  is_Some (mk_disjoint add rm).
Proof.
  intros Hlen. unfold mk_disjoint.
  destruct (get_edges add rm) as [ex0 ey0] eqn:E. simpl in Hlen.
  destruct (mk_disjoint_edges _ _ _ _ E) as (Hx & Hy & Hlx & Hly & Hona & Honr).
  set (ex := Disjoint.quicksort ex0) in *. set (ey := Disjoint.quicksort ey0) in *.
  set (s := Z.of_nat (length ey) - 1) in *. set (w := Z.of_nat (length ex) - 1) in *.
  assert (Hcells : forall i j, 0 <= i < s -> 0 <= j < w ->
            0 <= s * i + j < Z.of_nat (length (repeat 1 (Z.to_nat (w * s))))).
  { intros i j Hi Hj. rewrite repeat_length.
    destruct (Nat.le_gt_cases (length ey) 2) as [H2|H2].
    - assert (s = 1) by (unfold s; lia). assert (i = 0) by lia. subst i. nia.
    - assert (s <= w) by (unfold s, w; lia).
      assert ((s - 1) * (w - s) >= 0) by nia. nia. }
  unfold mark_all.
  destruct (mark_list_total s w ex ey Hx Hy eq_refl eq_refl true add _ Hona Hcells)
    as [g1 E1].
  rewrite E1. simpl.
  assert (Hl1 : length g1 = length (repeat 1 (Z.to_nat (w * s)))).
  { clear -E1. revert E1. generalize (repeat 1 (Z.to_nat (w * s))).
    induction add as [|r rs IH]; intros g E1; simpl in E1; [injection E1 as <-; reflexivity|].
    destruct (mark_rect true ex ey g r) as [g2|] eqn:E2; simpl in E1; [|discriminate].
    rewrite (IH _ E1). rewrite mark_rect_unfold in E2.
    destruct (nondegenerate r); [exact (mark_rows_length _ _ _ _ _ _ _ _ E2)|].
    injection E2 as <-. reflexivity. }
  destruct (mark_list_total s w ex ey Hx Hy eq_refl eq_refl false rm g1 Honr
              ltac:(rewrite Hl1; exact Hcells)) as [grid E2].
  rewrite E2. simpl.
  assert (Hl2 : length grid = length g1).
  { clear -E2. revert E2. generalize g1.
    induction rm as [|r rs IH]; intros g E2; simpl in E2; [injection E2 as <-; reflexivity|].
    destruct (mark_rect false ex ey g r) as [g2|] eqn:E3; simpl in E2; [|discriminate].
    rewrite (IH _ E2). rewrite mark_rect_unfold in E3.
    destruct (nondegenerate r); [exact (mark_rows_length _ _ _ _ _ _ _ _ E3)|].
    injection E3 as <-. reflexivity. }
  apply emit_rows_total. intros i j Hi Hj. rewrite Hl2, Hl1. apply Hcells; lia.
Qed.

Lemma mk_disjoint_defined_witness :
  (length (get_edges [mkRect 0 0 10 10] [mkRect 5 0 10 10]).2 <=
   length (get_edges [mkRect 0 0 10 10] [mkRect 5 0 10 10]).1 \/
   length (get_edges [mkRect 0 0 10 10] [mkRect 5 0 10 10]).2 <= 2)%nat /\
  is_Some (mk_disjoint [mkRect 0 0 10 10] [mkRect 5 0 10 10]).
Proof.
  split; [left; vm_compute; lia|].
  apply (mk_disjoint_defined [mkRect 0 0 10 10] [mkRect 5 0 10 10]). left; vm_compute; lia.
Defined.
